(** * Risk-overlay synchronisation of the SF crime mapper

    A shallow embedding of [frontend/src/App.jsx]: the region index built by
    [onLoad], the request counter [requestIdRef], and the asynchronous
    function [paintChoropleth], split at its single [await].

    Modelling conventions.
    - A JavaScript object used as a dictionary ([idMapRef.current]) and a
      [Map] ([predsByNameRef.current]) are finite maps with string keys. On
      the [Map] every key is stored; on the plain object an assignment
      [o[key] = v] stores every key but [__proto__] (see [assign]). The
      Mapbox feature-state store is a finite map from feature id to the
      value of its [risk] entry.
    - The request counter holds a non-negative integer and is a [nat]; the
      model does not follow it past the integers a JavaScript number
      represents exactly.
    - React state ([err], [loading], [servedWeek]) is the last value handed
      to its setter.
    - An [async] function is the pair of its synchronous prefix (which
      returns the captured locals of the suspended call) and its
      continuation (which receives the settled promise). *)

From Stdlib Require Import QArith.
From stdpp Require Import gmap strings list fin_maps pretty.

Local Open Scope string_scope.

(** ** JavaScript values *)

Module JS.

(** Numbers as far as [Number.isFinite] tells them apart; a finite number
    carries its value. *)
Inductive number : Type :=
| NaN
| PosInfinity
| NegInfinity
| Finite (q : Q).

Definition zero : number := Finite (inject_Z 0).
Definition one : number := Finite (inject_Z 1).

(** [Number.isFinite(x)] *)
Definition isFinite (x : number) : bool :=
  match x with
  | Finite _ => true
  | _ => false
  end.

(** The values of the [risk] field of a prediction that are modelled: a
    missing field ([Undefined]), [null], a boolean or a number. Strings and
    objects, which [Number] would parse or convert, are left out. *)
Inductive value : Type :=
| Undefined
| Null
| Bool (b : bool)
| Num (x : number).

(** [Number(v)] *)
Definition Number (v : value) : number :=
  match v with
  | Undefined => NaN
  | Null => zero
  | Bool true => one
  | Bool false => zero
  | Num x => x
  end.

(** The integers [String] prints in plain decimal: those below 10^21 in
    magnitude (from there on JavaScript prints an exponent). *)
Definition plain (z : Z) : bool := (Z.abs z <? 10 ^ 21)%Z.

(** The values of the identifying fields ([properties.neighborhood],
    [properties.name], [f.id], [neighborhood_id]) that are modelled: a
    missing field, [null], a string, or an integer below 10^21 in
    magnitude. *)
Inductive ident : Type :=
| IUndefined
| INull
| IStr (s : string)
| IInt (z : Z) (small : Is_true (plain z)).

(** [String(v)] *)
Definition String (v : ident) : string :=
  match v with
  | IUndefined => "undefined"
  | INull => "null"
  | IStr s => s
  | IInt z _ => pretty z
  end.

(** Truthiness, as tested by [a || b]. *)
Definition truthy (v : ident) : bool :=
  match v with
  | IUndefined | INull => false
  | IStr s => negb (String.eqb s "")
  | IInt z _ => negb (Z.eqb z 0)
  end.

(** [a || b] *)
Definition or (a b : ident) : ident := if truthy a then a else b.

(** [a ?? b] *)
Definition coalesce (a b : ident) : ident :=
  match a with
  | IUndefined | INull => b
  | _ => a
  end.

(** [String(a ?? idx)] for a position [idx] of an array (a number below
    2^32, printed in plain decimal). *)
Definition StringOr (a : ident) (idx : nat) : string :=
  match a with
  | IUndefined | INull => pretty idx
  | _ => String a
  end.

(** [o[key] = v] for a number [v] on an object created by [{}]. Every key
    becomes an own property, except [__proto__]: that one reaches the
    setter inherited from [Object.prototype], which ignores a value that
    is neither an object nor [null], so nothing is stored. *)
Definition assign (key : string) (v : nat) (o : gmap string nat)
  : gmap string nat :=
  if String.eqb key "__proto__" then o else <[key := v]> o.

End JS.

(** ** Data *)

(** [f.properties] of a GeoJSON feature. *)
Record Properties : Type := mkProperties {
  neighborhood : JS.ident;
  name : JS.ident
}.

(** A GeoJSON feature; the geometry plays no part. [properties = None] is a
    null or missing [properties]. *)
Record Feature : Type := mkFeature {
  id : JS.ident;
  properties : option Properties
}.

(** A feature of the source "neigh", as the callback of [onLoad] returns it
    ([{ ...f, id: idx }]) and as Mapbox hands it to the event handlers: its
    id is the position it had in the collection. *)
Record MapFeature : Type := mkMapFeature {
  fid : nat;
  fproperties : option Properties
}.

(** An element of [resp.predictions]. *)
Record Prediction : Type := mkPrediction {
  neighborhood_id : JS.ident;
  risk : JS.value;
  prob : JS.value;
  mean_incidents : JS.value
}.

(** The payload of [/api/predict] and [/api/spike]. [predictions = None] is
    a payload on which [resp.predictions.map] throws; [served_week = None]
    is a null or missing field. *)
Record Response : Type := mkResponse {
  predictions : option (list Prediction);
  served_week : option string
}.

(** How the awaited promise settles. A rejection carries [e?.message]. *)
Inductive Settled : Type :=
| Fulfilled (resp : Response)
| Rejected (message : option string).

(** The refs and the React state of [App], and the Mapbox map. *)
Record State : Type := mkState {
  mapRef : bool;                          (* mapRef.current is a map *)
  source_neigh : option (list MapFeature); (* m.getSource("neigh") *)
  featureState : gmap nat JS.number;      (* feature id -> state.risk *)
  idMapRef : gmap string nat;
  featureCountRef : nat;
  predsByNameRef : gmap string Prediction;
  requestIdRef : nat;
  err : string;
  loading : bool;
  servedWeek : option string
}.

Definition initialState : State :=
  {| mapRef := false; source_neigh := None; featureState := ∅;
     idMapRef := ∅; featureCountRef := 0; predsByNameRef := ∅;
     requestIdRef := 0; err := ""; loading := false; servedWeek := None |}.

Definition setErr (v : string) (st : State) : State :=
  {| mapRef := mapRef st; source_neigh := source_neigh st;
     featureState := featureState st; idMapRef := idMapRef st;
     featureCountRef := featureCountRef st;
     predsByNameRef := predsByNameRef st; requestIdRef := requestIdRef st;
     err := v; loading := loading st; servedWeek := servedWeek st |}.

Definition setLoading (v : bool) (st : State) : State :=
  {| mapRef := mapRef st; source_neigh := source_neigh st;
     featureState := featureState st; idMapRef := idMapRef st;
     featureCountRef := featureCountRef st;
     predsByNameRef := predsByNameRef st; requestIdRef := requestIdRef st;
     err := err st; loading := v; servedWeek := servedWeek st |}.

Definition setServedWeek (v : option string) (st : State) : State :=
  {| mapRef := mapRef st; source_neigh := source_neigh st;
     featureState := featureState st; idMapRef := idMapRef st;
     featureCountRef := featureCountRef st;
     predsByNameRef := predsByNameRef st; requestIdRef := requestIdRef st;
     err := err st; loading := loading st; servedWeek := v |}.

Definition setPredsByName (v : gmap string Prediction) (st : State) : State :=
  {| mapRef := mapRef st; source_neigh := source_neigh st;
     featureState := featureState st; idMapRef := idMapRef st;
     featureCountRef := featureCountRef st;
     predsByNameRef := v; requestIdRef := requestIdRef st;
     err := err st; loading := loading st; servedWeek := servedWeek st |}.

Definition setRequestId (v : nat) (st : State) : State :=
  {| mapRef := mapRef st; source_neigh := source_neigh st;
     featureState := featureState st; idMapRef := idMapRef st;
     featureCountRef := featureCountRef st;
     predsByNameRef := predsByNameRef st; requestIdRef := v;
     err := err st; loading := loading st; servedWeek := servedWeek st |}.

Definition setIdMap (v : gmap string nat) (st : State) : State :=
  {| mapRef := mapRef st; source_neigh := source_neigh st;
     featureState := featureState st; idMapRef := v;
     featureCountRef := featureCountRef st;
     predsByNameRef := predsByNameRef st; requestIdRef := requestIdRef st;
     err := err st; loading := loading st; servedWeek := servedWeek st |}.

Definition setFeatureCount (v : nat) (st : State) : State :=
  {| mapRef := mapRef st; source_neigh := source_neigh st;
     featureState := featureState st; idMapRef := idMapRef st;
     featureCountRef := v;
     predsByNameRef := predsByNameRef st; requestIdRef := requestIdRef st;
     err := err st; loading := loading st; servedWeek := servedWeek st |}.

Definition setSource (v : option (list MapFeature)) (st : State) : State :=
  {| mapRef := mapRef st; source_neigh := v;
     featureState := featureState st; idMapRef := idMapRef st;
     featureCountRef := featureCountRef st;
     predsByNameRef := predsByNameRef st; requestIdRef := requestIdRef st;
     err := err st; loading := loading st; servedWeek := servedWeek st |}.

(** [m.setFeatureState({ source: "neigh", id: i }, { risk: v })] *)
Definition setFeatureState (i : nat) (v : JS.number) (st : State) : State :=
  {| mapRef := mapRef st; source_neigh := source_neigh st;
     featureState := <[i := v]> (featureState st); idMapRef := idMapRef st;
     featureCountRef := featureCountRef st;
     predsByNameRef := predsByNameRef st; requestIdRef := requestIdRef st;
     err := err st; loading := loading st; servedWeek := servedWeek st |}.

(** ** The region index ([onLoad]) *)

(** [f.properties?.neighborhood] and [f.properties?.name], on the
    [properties] of a feature *)
Definition prop_neighborhood (props : option Properties) : JS.ident :=
  match props with
  | Some p => neighborhood p
  | None => JS.IUndefined
  end.

Definition prop_name (props : option Properties) : JS.ident :=
  match props with
  | Some p => name p
  | None => JS.IUndefined
  end.

(** [f.properties?.neighborhood || f.properties?.name] *)
Definition nameOf (props : option Properties) : JS.ident :=
  JS.or (prop_neighborhood props) (prop_name props).

(** [const name = f.properties?.neighborhood || f.properties?.name] *)
Definition featureName (f : Feature) : JS.ident := nameOf (properties f).

(** [const key = String(name ?? f.id ?? idx)] *)
Definition featureKey (f : Feature) (idx : nat) : string :=
  JS.StringOr (JS.coalesce (featureName f) (id f)) idx.

(** [{ ...f, id: idx }] *)
Definition withId (f : Feature) (idx : nat) : MapFeature :=
  {| fid := idx; fproperties := properties f |}.

(** [raw.features.map((f, idx) => { ...; idMapRef.current[key] = idx; ... })]
    from position [idx] on: the new array, and the object the callback has
    written to. *)
Fixpoint mapFeatures (idx : nat) (fs : list Feature) (idMap : gmap string nat)
  : list MapFeature * gmap string nat :=
  match fs with
  | [] => ([], idMap)
  | f :: rest =>
      let key := featureKey f idx in
      let '(out, idMap') :=
        mapFeatures (S idx) rest (JS.assign key idx idMap) in
      (withId f idx :: out, idMap')
  end.

(** The index and the feature count [onLoad] leaves behind when it starts
    from the empty object of [useRef({})]. *)
Definition buildIndex (fs : list Feature) : gmap string nat :=
  (mapFeatures 0 fs ∅).2.

(** ** The request counter *)

(** [++requestIdRef.current] *)
Definition nextEpoch (st : State) : nat * State :=
  let e := S (requestIdRef st) in (e, setRequestId e st).

(** [rid === requestIdRef.current] *)
Definition isCurrent (rid : nat) (st : State) : bool :=
  Nat.eqb rid (requestIdRef st).

(** ** [paintChoropleth] *)

(** [m.getSource("neigh")], as a condition. *)
Definition getSource (st : State) : bool :=
  match source_neigh st with
  | Some _ => true
  | None => false
  end.

(** The locals a suspended call of [paintChoropleth] holds on to. *)
Record Pending : Type := mkPending {
  rid : nat;
  currentMode : string
}.

(** The part of [paintChoropleth] before the [await]. *)
Definition paintChoropleth (mode : string) (st : State)
  : State * option Pending :=
  if negb (mapRef st) || negb (getSource st)
  then (st, None)
  else
    let st := setLoading true st in
    let st := setErr "" st in
    let st := setServedWeek None st in
    let '(rid, st) := nextEpoch st in
    (st, Some {| rid := rid; currentMode := mode |}).

(** [new Map(preds.map((p) => [String(p.neighborhood_id), p]))]: entries are
    inserted in array order, a later one replacing an earlier one. *)
Definition newMap (preds : list Prediction) : gmap string Prediction :=
  foldl (fun m p => <[JS.String (neighborhood_id p) := p]> m) ∅ preds.

(** [Object.entries(o)], up to the order of the entries: JavaScript
    enumerates integer-like keys ascending and then the others as created,
    which is one permutation of this list. The loop over the entries writes
    the same store for every permutation when no two keys share a slot
    ([paintLoop_Permutation]), as in every index [onLoad] builds from the
    empty object ([painted_any_order]); the statements that speak of the
    value painted on an indexed slot assume one or the other. *)
Definition Object_entries (o : gmap string nat) : list (string * nat) :=
  map_to_list o.

(** [resp.served_week || null] *)
Definition servedWeekOf (resp : Response) : option string :=
  match served_week resp with
  | Some w => if String.eqb w "" then None else Some w
  | None => None
  end.

(** [e?.message || "Failed to load data."] *)
Definition errorText (message : option string) : string :=
  match message with
  | Some s => if String.eqb s "" then "Failed to load data." else s
  | None => "Failed to load data."
  end.

(** The message of the [TypeError] thrown by [resp.predictions.map] when
    [predictions] is missing (the text is the engine's). *)
Definition TypeError_message : option string :=
  Some "Cannot read properties of undefined (reading 'map')".

(** The [catch] block. *)
Definition catchBlock (message : option string) (st : State) : State :=
  setErr (errorText message) st.

(** The [finally] block. *)
Definition finallyBlock (rid : nat) (st : State) : State :=
  if Nat.eqb rid (requestIdRef st) then setLoading false st else st.

(** The spike branch of the [try] block, from the resolution of
    [getSpike] on. *)
Definition spikeBranch (rid : nat) (resp : Response) (st : State) : State :=
  if negb (Nat.eqb rid (requestIdRef st)) then st
  else
    match predictions resp with
    | None => catchBlock TypeError_message st
    | Some preds =>
        let byName := newMap preds in
        let st := setPredsByName byName st in
        let st := setServedWeek (servedWeekOf resp) st in
        let st :=
          foldl (fun st i => setFeatureState i JS.zero st) st
                (seq 0 (featureCountRef st)) in
        foldl (fun st '(name, idx) =>
                 let p := byName !! name in
                 let risk := match p with
                             | Some p => JS.Number (risk p)
                             | None => JS.zero
                             end in
                 setFeatureState idx
                   (if JS.isFinite risk then risk else JS.zero) st)
              st (Object_entries (idMapRef st))
    end.

(** The forecast branch of the [try] block, from the resolution of
    [getPredictions] on. *)
Definition forecastBranch (rid : nat) (data : Response) (st : State) : State :=
  if negb (Nat.eqb rid (requestIdRef st)) then st
  else
    match predictions data with
    | None => catchBlock TypeError_message st
    | Some preds =>
        let byName := newMap preds in
        let st := setPredsByName byName st in
        let st :=
          foldl (fun st i => setFeatureState i JS.zero st) st
                (seq 0 (featureCountRef st)) in
        foldl (fun st '(name, idx) =>
                 let p := byName !! name in
                 let risk := match p with
                             | Some p => JS.Number (risk p)
                             | None => JS.zero
                             end in
                 setFeatureState idx
                   (if JS.isFinite risk then risk else JS.zero) st)
              st (Object_entries (idMapRef st))
    end.

(** The part of [paintChoropleth] after the [await]: the rest of the [try]
    block or the [catch] block, then the [finally] block. *)
Definition paintChoropleth_resume (p : Pending) (r : Settled) (st : State)
  : State :=
  let st :=
    match r with
    | Fulfilled resp =>
        if String.eqb (currentMode p) "spike"
        then spikeBranch (rid p) resp st
        else forecastBranch (rid p) resp st
    | Rejected message => catchBlock message st
    end in
  finallyBlock (rid p) st.

(** [onLoad] from the resolution of [getNeighborhoods] on, for the map [m]
    the effect has found in [mapRef.current]; it ends with the initial
    [paintChoropleth(mode, date, crime, tod)]. *)
Definition onLoad (raw : list Feature) (mode : string) (st : State)
  : State * option Pending :=
  let '(features, idMap) := mapFeatures 0 raw (idMapRef st) in
  let st := setIdMap idMap st in
  let st := setFeatureCount (length features) st in
  let st := match source_neigh st with
            | None => setSource (Some features) st
            | Some _ => st
            end in
  paintChoropleth mode st.

(** ** Runs of the component *)

(** [mapRef.current = m] ([true]) and [mapRef.current = null] ([false]). *)
Definition setMapRef (v : bool) (st : State) : State :=
  {| mapRef := v; source_neigh := source_neigh st;
     featureState := featureState st; idMapRef := idMapRef st;
     featureCountRef := featureCountRef st;
     predsByNameRef := predsByNameRef st; requestIdRef := requestIdRef st;
     err := err st; loading := loading st; servedWeek := servedWeek st |}.

(** The whole feature-state store at once. *)
Definition setFeatureStore (fs : gmap nat JS.number) (st : State) : State :=
  {| mapRef := mapRef st; source_neigh := source_neigh st;
     featureState := fs; idMapRef := idMapRef st;
     featureCountRef := featureCountRef st;
     predsByNameRef := predsByNameRef st; requestIdRef := requestIdRef st;
     err := err st; loading := loading st; servedWeek := servedWeek st |}.

(** [const m = new mapboxgl.Map(...); mapRef.current = m]: a map without
    source and without feature state. *)
Definition createMap (st : State) : State :=
  setMapRef true (setSource None (setFeatureStore ∅ st)).

(** What can happen to the component while its map lives: the map is
    created (effect 1 with a token and WebGL), the neighborhoods arrive and
    [onLoad] runs on, a control changes and effect 3 calls
    [paintChoropleth], the fetch of a suspended call settles. The removal
    of the map (the cleanup of effect 1) is not an event of these runs; it
    is [cleanupEffect]. *)
Inductive Event : Type :=
| MapCreated
| Loaded (raw : list Feature) (mode : string)
| Changed (mode : string)
| Settle (p : Pending) (r : Settled).

Definition option_to_list {A} (o : option A) : list A :=
  match o with
  | Some a => [a]
  | None => []
  end.

(** One event, on the state and the log of the calls suspended so far (in
    the order their epochs were issued). [MapCreated] is effect 1 past its
    checks of the token and of WebGL: it returns at once when
    [mapRef.current] holds a map and creates one otherwise. Effect 2 runs
    [onLoad] only for a map it finds in [mapRef.current]. *)
Definition step (c : State * list Pending) (ev : Event)
  : State * list Pending :=
  let '(st, issued) := c in
  match ev with
  | MapCreated => (if mapRef st then st else createMap st, issued)
  | Loaded raw mode =>
      if mapRef st
      then let '(st', p) := onLoad raw mode st in
           (st', (issued ++ option_to_list p)%list)
      else (st, issued)
  | Changed mode =>
      let '(st', p) := paintChoropleth mode st in
      (st', (issued ++ option_to_list p)%list)
  | Settle p r => (paintChoropleth_resume p r st, issued)
  end.

Definition run (evs : list Event) : State * list Pending :=
  foldl step (initialState, []) evs.

(** ** Vocabulary of the statements *)

(** The risk the apply loop writes for the key [name]. *)
Definition riskFor (byName : gmap string Prediction) (name : string)
  : JS.number :=
  let risk := match byName !! name with
              | Some p => JS.Number (risk p)
              | None => JS.zero
              end in
  if JS.isFinite risk then risk else JS.zero.

(** The state [onLoad] leaves for the region collection [regions]. *)
Definition indexedBy (regions : list Feature) (st : State) : Prop :=
  idMapRef st = buildIndex regions ∧ featureCountRef st = length regions.

(** What a synchronisation paints and caches. *)
Definition visual (st : State)
  : gmap nat JS.number * gmap string Prediction * option string :=
  (featureState st, predsByNameRef st, servedWeek st).

(** [null] or [undefined]. *)
Definition nullish (v : JS.ident) : bool :=
  match v with
  | JS.IUndefined | JS.INull => true
  | _ => false
  end.

(** The two loops, on the feature-state store alone. *)
Definition resetStore (count : nat) (fs : gmap nat JS.number)
  : gmap nat JS.number :=
  foldl (fun fs i => <[i := JS.zero]> fs) fs (seq 0 count).

Definition paintStore (byName : gmap string Prediction)
  (entries : list (string * nat)) (fs : gmap nat JS.number)
  : gmap nat JS.number :=
  foldl (fun fs e => <[e.2 := riskFor byName e.1]> fs) fs entries.


(** No region of [fs], numbered from [i], has the key [k]. *)
Definition keyFree (k : string) (i : nat) (fs : list Feature) : Prop :=
  ∀ j f, fs !! j = Some f → featureKey f (i + j) ≠ k.

(** What an accepted response with a [predictions] array leaves on the
    map. *)
Definition painted (preds : list Prediction) (st : State)
  : gmap nat JS.number :=
  paintStore (newMap preds) (Object_entries (idMapRef st))
    (resetStore (featureCountRef st) (featureState st)).

(** ** A worked run *)

Module Demo.

Definition named (s : string) : Feature :=
  {| id := JS.IUndefined;
     properties := Some {| neighborhood := JS.IStr s;
                           name := JS.IUndefined |} |}.

Definition regions : list Feature := [named "Mission"; named "SoMa"].

Definition prediction (key : string) (r : Q) : Prediction :=
  {| neighborhood_id := JS.IStr key; risk := JS.Num (JS.Finite r);
     prob := JS.Undefined; mean_incidents := JS.Undefined |}.

(** The map exists, the neighborhoods are in, the initial paint (epoch 1)
    is in flight. *)
Definition loaded : State :=
  (onLoad regions "forecast" (setMapRef true initialState)).1.

Definition first : Pending := {| rid := 1; currentMode := "forecast" |}.

(** Two changes of the controls in a row: epochs 2 and 3. *)
Definition second : Pending := {| rid := 2; currentMode := "forecast" |}.
Definition third : Pending := {| rid := 3; currentMode := "spike" |}.
Definition afterSecond : State := (paintChoropleth "forecast" loaded).1.
Definition afterThird : State := (paintChoropleth "spike" afterSecond).1.

Definition forecast80 : Response :=
  {| predictions := Some [prediction "Mission" 80; prediction "SoMa" 15];
     served_week := None |}.

Definition spike62 : Response :=
  {| predictions := Some [prediction "Mission" 62];
     served_week := Some "2024-W09" |}.

Definition soma41 : Response :=
  {| predictions := Some [prediction "SoMa" 41]; served_week := None |}.

Definition negative : Response :=
  {| predictions := Some [prediction "Mission" (-5); prediction "SoMa" 137];
     served_week := None |}.

(** The initial paint is accepted with [forecast80]; then a control
    changes and epoch 2 is issued. *)
Definition painted80 : State :=
  paintChoropleth_resume first (Fulfilled forecast80) loaded.
Definition reissued : State := (paintChoropleth "forecast" painted80).1.

End Demo.

(** ** The rest of the component *)

(** *** Effect 1: the base map *)

(** [!mapboxgl.accessToken] is false: the token is a non-empty string. *)
Definition tokenPresent (accessToken : option string) : bool :=
  match accessToken with
  | Some t => negb (String.eqb t "")
  | None => false
  end.

(** The body of effect 1, for the token of the environment and the answer
    of [mapboxgl.supported()]. A new [mapboxgl.Map] has no source and no
    feature state. *)
Definition initMapEffect (accessToken : option string) (supported : bool)
  (st : State) : State :=
  if mapRef st then st
  else if negb (tokenPresent accessToken)
  then setErr "Mapbox token missing. Put VITE_MAPBOX_TOKEN in frontend/.env and restart Vite." st
  else if negb supported
  then setErr "WebGL unsupported. Enable hardware acceleration in your browser." st
  else createMap st.

(** The cleanup of effect 1 (and the [dispose] handler):
    [mapRef.current.remove(); mapRef.current = null]. *)
Definition cleanupEffect (st : State) : State :=
  if mapRef st then setMapRef false st else st.

(** *** [onLoad], whole *)

(** How [getNeighborhoods()] settles; [features = None] is a payload on
    which [raw.features.map] throws. *)
Inductive Neighborhoods : Type :=
| NeighborhoodsFulfilled (features : option (list Feature))
| NeighborhoodsRejected (message : option string).

(** [e?.message || "Failed to load neighborhoods."] *)
Definition loadErrorText (message : option string) : string :=
  match message with
  | Some s => if String.eqb s "" then "Failed to load neighborhoods." else s
  | None => "Failed to load neighborhoods."
  end.

(** [onLoad] from the settlement of [getNeighborhoods()] on, with its
    [catch] block. *)
Definition onLoad_resume (r : Neighborhoods) (mode : string) (st : State)
  : State * option Pending :=
  match r with
  | NeighborhoodsFulfilled (Some raw) => onLoad raw mode st
  | NeighborhoodsFulfilled None =>
      (setErr (loadErrorText TypeError_message) st, None)
  | NeighborhoodsRejected message => (setErr (loadErrorText message) st, None)
  end.

(** *** The hover popup *)

(** The last line of the popup, by the expression that is formatted:
    [Number(mean).toFixed(2)] after "Mean incidents: ",
    [(Number(pred.prob) * 100).toFixed(1)] or, without a cached record,
    [Number(risk).toFixed(1)] after "Spike probability: ". *)
Inductive Detail : Type :=
| MeanIncidents (mean : JS.number)
| SpikeProbability (prob : JS.number)
| SpikeFallback (risk : JS.number).

(** What the popup is made of: [name ?? "?"] as a string, the argument of
    [Number(risk).toFixed(1)], and the last line. *)
Record Popup : Type := mkPopup {
  heading : string;
  riskLine : JS.number;
  detailLine : Detail
}.

(** [(m.getFeatureState({ source: "neigh", id: f.id }) || {}).risk] *)
Definition featureRisk (f : MapFeature) (st : State) : option JS.number :=
  featureState st !! fid f.

(** The [mousemove] handler on [e.features], for the mode [modeRef.current]
    holds; [None] when it returns without showing the popup. *)
Definition mousemove (modeRefCurrent : string) (features : list MapFeature)
  (st : State) : option Popup :=
  match features with
  | [] => None
  | f :: _ =>
      let name := nameOf (fproperties f) in
      let pred := predsByNameRef st !! JS.String name in
      let risk := default JS.zero (featureRisk f st) in
      Some {| heading := JS.String (JS.coalesce name (JS.IStr "?"));
              riskLine := risk;
              detailLine :=
                if String.eqb modeRefCurrent "forecast"
                then MeanIncidents
                       (match pred with
                        | Some p => JS.Number (mean_incidents p)
                        | None => JS.zero
                        end)
                else match pred with
                     | Some p => SpikeProbability (JS.Number (prob p))
                     | None => SpikeFallback risk
                     end |}
  end.

(** *** Sequences of writes to the store *)

(** The writes of the reset loop and of the apply loop, in order. *)
Definition resetWrites (count : nat) : list (nat * JS.number) :=
  (fun i => (i, JS.zero)) <$> seq 0 count.

Definition paintWrites (byName : gmap string Prediction)
  (entries : list (string * nat)) : list (nat * JS.number) :=
  (fun e => (e.2, riskFor byName e.1)) <$> entries.

Definition applyWrites (ws : list (nat * JS.number))
  (fs : gmap nat JS.number) : gmap nat JS.number :=
  foldl (fun fs w => <[w.1 := w.2]> fs) fs ws.

(** The value last written to slot [s], if any. *)
Fixpoint lastWrite (s : nat) (ws : list (nat * JS.number))
  : option JS.number :=
  match ws with
  | [] => None
  | w :: rest =>
      match lastWrite s rest with
      | Some v => Some v
      | None => if decide (w.1 = s) then Some w.2 else None
      end
  end.

(** An event is not a load of another collection than [raw]. *)
Definition loadsOnly (raw : list Feature) (ev : Event) : Prop :=
  match ev with
  | Loaded raw' _ => raw' = raw
  | _ => True
  end.

(** ** A second worked run: duplicate keys and a region without a name *)

Module Scenes.

Definition id42 : JS.ident := JS.IInt 42 I.

Definition anonymous (n : JS.ident) : Feature :=
  {| id := n; properties := None |}.

(** "Mission" twice, and a region known by its id 42 only. *)
Definition regions : list Feature :=
  [Demo.named "Mission"; Demo.named "Mission"; anonymous id42].

Definition loaded : State :=
  (onLoad regions "forecast"
     (initMapEffect (Some "pk.token") true initialState)).1.

Definition record (key : JS.ident) (r m : Q) : Prediction :=
  {| neighborhood_id := key; risk := JS.Num (JS.Finite r);
     prob := JS.Undefined; mean_incidents := JS.Num (JS.Finite m) |}.

Definition forecast : Response :=
  {| predictions := Some [record (JS.IStr "Mission") 70 12;
                          record id42 30 4];
     served_week := None |}.

Definition shown : State :=
  paintChoropleth_resume Demo.first (Fulfilled forecast) loaded.

(** A region named [__proto__]. *)
Definition protoRegions : list Feature :=
  [Demo.named "__proto__"; Demo.named "SoMa"].

Definition protoLoaded : State :=
  (onLoad protoRegions "forecast"
     (initMapEffect (Some "pk.token") true initialState)).1.

Definition protoResponse : Response :=
  {| predictions := Some [Demo.prediction "__proto__" 50;
                          Demo.prediction "SoMa" 20];
     served_week := None |}.

Definition protoShown : State :=
  paintChoropleth_resume Demo.first (Fulfilled protoResponse) protoLoaded.

(** Three regions are painted, then a collection of one is loaded on the
    same map: epoch 2 is issued by the second [onLoad]. *)
Definition three : list Feature :=
  [Demo.named "Mission"; Demo.named "SoMa"; Demo.named "Mission"].

Definition threePainted : State :=
  paintChoropleth_resume Demo.first (Fulfilled Demo.forecast80)
    (onLoad three "forecast"
       (initMapEffect (Some "pk.token") true initialState)).1.

Definition reloaded : State :=
  (onLoad [Demo.named "SoMa"] "forecast" threePainted).1.

End Scenes.

(** * Properties *)

(** ** The loops *)

Section Loops.

Context (byName : gmap string Prediction).

Lemma setFeatureStore_id st : setFeatureStore (featureState st) st = st.
Proof. by destruct st. Qed.

Lemma resetLoop_store st l :
  foldl (fun st i => setFeatureState i JS.zero st) st l
  = setFeatureStore
      (foldl (fun fs i => <[i := JS.zero]> fs) (featureState st) l) st.
Proof.
  revert st. induction l as [|i l IH]; intros st; simpl.
  - by rewrite setFeatureStore_id.
  - rewrite IH. by destruct st.
Qed.

Lemma paintLoop_store st l :
  foldl (fun st '(name, idx) =>
           let p := byName !! name in
           let risk := match p with
                       | Some p => JS.Number (risk p)
                       | None => JS.zero
                       end in
           setFeatureState idx
             (if JS.isFinite risk then risk else JS.zero) st) st l
  = setFeatureStore (paintStore byName l (featureState st)) st.
Proof.
  unfold paintStore. revert st.
  induction l as [|[k s] l IH]; intros st; simpl.
  - by rewrite setFeatureStore_id.
  - rewrite IH. by destruct st.
Qed.

Lemma resetStore_lookup count fs s :
  resetStore count fs !! s
  = if decide (s < count) then Some JS.zero else fs !! s.
Proof.
  unfold resetStore. induction count as [|n IH].
  - destruct (decide (s < 0)); [lia|done].
  - rewrite seq_S, foldl_app. cbn [foldl Nat.add].
    destruct (decide (s = n)) as [->|Hne].
    + rewrite lookup_insert_eq. destruct (decide (n < S n)); [done|lia].
    + rewrite lookup_insert_ne by done. rewrite IH.
      destruct (decide (s < n)), (decide (s < S n)); try done; lia.
Qed.

Lemma paintStore_notin l fs s :
  s ∉ l.*2 → paintStore byName l fs !! s = fs !! s.
Proof.
  unfold paintStore. revert fs.
  induction l as [|[k i] l IH]; intros fs Hs; simpl in *; [done|].
  apply not_elem_of_cons in Hs as [Hne Hs].
  rewrite IH by done. by apply lookup_insert_ne.
Qed.

Lemma paintStore_in l fs k s :
  NoDup l.*2 → (k, s) ∈ l →
  paintStore byName l fs !! s = Some (riskFor byName k).
Proof.
  unfold paintStore. revert fs.
  induction l as [|[k' i] l IH]; intros fs Hnd Hin; simpl in *.
  - by apply elem_of_nil in Hin.
  - apply NoDup_cons in Hnd as [Hi Hnd].
    apply elem_of_cons in Hin as [Heq|Hin].
    + inversion Heq; subst.
      fold (paintStore byName l (<[i:=riskFor byName k']> fs)).
      rewrite paintStore_notin by done. apply lookup_insert_eq.
    + by apply IH.
Qed.

(** The apply loop does not depend on the order of [Object.entries] when
    no two keys share a slot. *)
Lemma paintLoop_Permutation l l' fs :
  NoDup l.*2 → l ≡ₚ l' → paintStore byName l fs = paintStore byName l' fs.
Proof.
  intros Hnd Hp. apply map_eq. intros s.
  assert (NoDup l'.*2) as Hnd' by (by rewrite <- Hp).
  destruct (decide (s ∈ l.*2)) as [Hin|Hout].
  - apply list_elem_of_fmap in Hin as [[k i] [-> Hin]]. simpl.
    rewrite (paintStore_in l _ k) by done.
    rewrite (paintStore_in l' _ k); [done|done|by rewrite <- Hp].
  - rewrite !paintStore_notin; [done| by rewrite <- Hp |done].
Qed.

End Loops.

(** ** The region index *)

Section RegionIndex.

Lemma assign_lookup_ne key v (o : gmap string nat) k :
  key ≠ k → JS.assign key v o !! k = o !! k.
Proof.
  intros Hne. unfold JS.assign.
  destruct (String.eqb key "__proto__"); [done|]. by apply lookup_insert_ne.
Qed.

Lemma assign_lookup_eq k v (o : gmap string nat) :
  k ≠ "__proto__" → JS.assign k v o !! k = Some v.
Proof.
  intros Hne%String.eqb_neq. unfold JS.assign. rewrite Hne.
  apply lookup_insert_eq.
Qed.

Lemma assign_proto v (o : gmap string nat) : JS.assign "__proto__" v o = o.
Proof. done. Qed.

Lemma assign_insert key v (o : gmap string nat) :
  key ≠ "__proto__" → JS.assign key v o = <[key := v]> o.
Proof. intros Hne%String.eqb_neq. unfold JS.assign. by rewrite Hne. Qed.

Lemma mapFeatures_cons i f fs m :
  mapFeatures i (f :: fs) m
  = (withId f i :: (mapFeatures (S i) fs (JS.assign (featureKey f i) i m)).1,
     (mapFeatures (S i) fs (JS.assign (featureKey f i) i m)).2).
Proof. simpl. by destruct (mapFeatures _ _ _). Qed.

(** The callback never stores the key [__proto__]. *)
Lemma mapFeatures_proto fs : ∀ i (m : gmap string nat),
  (mapFeatures i fs m).2 !! "__proto__" = m !! "__proto__".
Proof.
  induction fs as [|f fs IH]; intros i m; [done|].
  rewrite mapFeatures_cons. cbn [snd]. rewrite IH.
  destruct (decide (featureKey f i = "__proto__")) as [->|Hne]; [done|].
  by apply assign_lookup_ne.
Qed.

Lemma mapFeatures_length fs : ∀ i m, length (mapFeatures i fs m).1 = length fs.
Proof.
  induction fs as [|f fs IH]; intros i m; [done|].
  rewrite mapFeatures_cons. simpl. by rewrite IH.
Qed.

Lemma mapFeatures_features fs : ∀ i m j,
  (mapFeatures i fs m).1 !! j = (fun f => withId f (i + j)) <$> fs !! j.
Proof.
  induction fs as [|f fs IH]; intros i m j; [done|].
  rewrite mapFeatures_cons. destruct j as [|j]; simpl.
  - by rewrite Nat.add_0_r.
  - rewrite IH. by rewrite Nat.add_succ_r.
Qed.

Lemma keyFree_cons k i f fs :
  keyFree k i (f :: fs) ↔ featureKey f i ≠ k ∧ keyFree k (S i) fs.
Proof.
  unfold keyFree. split.
  - intros H. split.
    + specialize (H 0 f). rewrite Nat.add_0_r in H. by apply H.
    + intros j g Hg. specialize (H (S j) g).
      rewrite Nat.add_succ_r in H. by apply H.
  - intros [H0 H] [|j] g Hg; simpl in Hg.
    + inversion Hg; subst. by rewrite Nat.add_0_r.
    + rewrite Nat.add_succ_r. by apply (H j g).
Qed.

(** The index after the callback has run over [fs]: a key other than
    [__proto__] leads to the last region that derives it, and otherwise to
    what the object held. *)
Lemma mapFeatures_index fs : ∀ i m k s,
  k ≠ "__proto__" →
  (mapFeatures i fs m).2 !! k = Some s ↔
    (∃ j f, s = i + j ∧ fs !! j = Some f ∧ featureKey f s = k
            ∧ keyFree k (S s) (drop (S j) fs))
    ∨ (m !! k = Some s ∧ keyFree k i fs).
Proof.
  induction fs as [|f fs IH]; intros i m k s Hk.
  - simpl. split.
    + intros H. right. split; [done|]. by intros j f Hf.
    + intros [(j & f & _ & Hf & _)|[H _]]; [done|done].
  - rewrite mapFeatures_cons. cbn [snd]. rewrite IH by done. split.
    + intros [(j & g & -> & Hg & Hkey & Hfree)|[Hm Hfree]].
      * left. exists (S j), g. rewrite Nat.add_succ_r. by repeat split.
      * destruct (decide (featureKey f i = k)) as [Heq|Hne].
        -- rewrite Heq, assign_lookup_eq in Hm by done.
           inversion Hm; subst s.
           left. exists 0, f. rewrite Nat.add_0_r. by repeat split.
        -- rewrite assign_lookup_ne in Hm by done.
           right. split; [done|]. by apply keyFree_cons.
    + intros [(j & g & -> & Hg & Hkey & Hfree)|[Hm Hfree]].
      * destruct j as [|j]; simpl in Hg, Hfree.
        -- inversion Hg; subst g. rewrite Nat.add_0_r in *.
           right. split; [|done]. rewrite Hkey.
           by rewrite assign_lookup_eq.
        -- left. exists j, g. rewrite Nat.add_succ_r in *. by repeat split.
      * apply keyFree_cons in Hfree as [Hne Hfree].
        right. split; [|done]. by rewrite assign_lookup_ne.
Qed.

Lemma buildIndex_proto fs : buildIndex fs !! "__proto__" = None.
Proof. unfold buildIndex. by rewrite mapFeatures_proto. Qed.

Lemma buildIndex_lookup fs k s :
  buildIndex fs !! k = Some s ↔
    k ≠ "__proto__"
    ∧ ∃ f, fs !! s = Some f ∧ featureKey f s = k
           ∧ keyFree k (S s) (drop (S s) fs).
Proof.
  destruct (decide (k = "__proto__")) as [->|Hk].
  { rewrite buildIndex_proto. split; [done|]. by intros [? _]. }
  unfold buildIndex. rewrite mapFeatures_index by done. split.
  - intros [(j & f & -> & Hf & Hkey & Hfree)|[H _]]; [|done].
    split; [done|]. exists f. by repeat split.
  - intros (_ & f & Hf & Hkey & Hfree). left. exists s, f. by repeat split.
Qed.

(** Two keys of a built index never share a slot. *)
Lemma buildIndex_inj fs k1 k2 s :
  buildIndex fs !! k1 = Some s → buildIndex fs !! k2 = Some s → k1 = k2.
Proof.
  intros (_ & f1 & Hf1 & <- & _)%buildIndex_lookup
         (_ & f2 & Hf2 & <- & _)%buildIndex_lookup.
  congruence.
Qed.


Lemma entries_NoDup_slots (o : gmap string nat) :
  (∀ k1 k2 s, o !! k1 = Some s → o !! k2 = Some s → k1 = k2) →
  NoDup (Object_entries o).*2.
Proof.
  intros Hinj. unfold Object_entries.
  apply NoDup_fmap_2_strong; [|apply NoDup_map_to_list].
  intros [k1 s1] [k2 s2] H1%elem_of_map_to_list H2%elem_of_map_to_list Heq.
  simpl in Heq; subst s2. by rewrite (Hinj k1 k2 s1).
Qed.

End RegionIndex.

(** ** The continuation of [paintChoropleth] *)

Section Continuation.

Lemma spikeBranch_stale rid resp st :
  rid ≠ requestIdRef st → spikeBranch rid resp st = st.
Proof.
  intros H%Nat.eqb_neq. unfold spikeBranch. by rewrite H.
Qed.

Lemma forecastBranch_stale rid data st :
  rid ≠ requestIdRef st → forecastBranch rid data st = st.
Proof.
  intros H%Nat.eqb_neq. unfold forecastBranch. by rewrite H.
Qed.

Lemma spikeBranch_malformed resp st :
  predictions resp = None →
  spikeBranch (requestIdRef st) resp st = catchBlock TypeError_message st.
Proof.
  intros H. unfold spikeBranch. by rewrite Nat.eqb_refl, H.
Qed.

Lemma forecastBranch_malformed data st :
  predictions data = None →
  forecastBranch (requestIdRef st) data st
  = catchBlock TypeError_message st.
Proof.
  intros H. unfold forecastBranch. by rewrite Nat.eqb_refl, H.
Qed.

Lemma spikeBranch_accepted resp preds st :
  predictions resp = Some preds →
  spikeBranch (requestIdRef st) resp st
  = setFeatureStore (painted preds st)
      (setServedWeek (servedWeekOf resp)
         (setPredsByName (newMap preds) st)).
Proof.
  intros H. unfold spikeBranch. rewrite Nat.eqb_refl, H. cbn [negb].
  rewrite resetLoop_store, paintLoop_store. by destruct st.
Qed.

Lemma forecastBranch_accepted data preds st :
  predictions data = Some preds →
  forecastBranch (requestIdRef st) data st
  = setFeatureStore (painted preds st) (setPredsByName (newMap preds) st).
Proof.
  intros H. unfold forecastBranch. rewrite Nat.eqb_refl, H. cbn [negb].
  rewrite resetLoop_store, paintLoop_store. by destruct st.
Qed.

Lemma resume_stale_fulfilled p resp st :
  rid p ≠ requestIdRef st →
  paintChoropleth_resume p (Fulfilled resp) st = st.
Proof.
  intros H. unfold paintChoropleth_resume, finallyBlock.
  rewrite spikeBranch_stale, forecastBranch_stale by done.
  apply Nat.eqb_neq in H. destruct (String.eqb _ _); by rewrite H.
Qed.

Lemma resume_stale_rejected p message st :
  rid p ≠ requestIdRef st →
  paintChoropleth_resume p (Rejected message) st
  = setErr (errorText message) st.
Proof.
  intros H%Nat.eqb_neq. unfold paintChoropleth_resume, finallyBlock.
  unfold catchBlock. cbn [requestIdRef setErr]. by rewrite H.
Qed.

Lemma resume_current_rejected p message st :
  rid p = requestIdRef st →
  paintChoropleth_resume p (Rejected message) st
  = setLoading false (setErr (errorText message) st).
Proof.
  intros H. unfold paintChoropleth_resume, finallyBlock, catchBlock.
  cbn [requestIdRef setErr]. by rewrite H, Nat.eqb_refl.
Qed.

Lemma resume_current_malformed p resp st :
  rid p = requestIdRef st → predictions resp = None →
  paintChoropleth_resume p (Fulfilled resp) st
  = setLoading false (setErr (errorText TypeError_message) st).
Proof.
  intros H Hp. unfold paintChoropleth_resume, finallyBlock. rewrite H.
  rewrite spikeBranch_malformed, forecastBranch_malformed by done.
  unfold catchBlock.
  destruct (String.eqb _ _); cbn [requestIdRef setErr];
    by rewrite Nat.eqb_refl.
Qed.

Lemma resume_accepted p resp preds st :
  rid p = requestIdRef st → predictions resp = Some preds →
  paintChoropleth_resume p (Fulfilled resp) st
  = setLoading false
      (setFeatureStore (painted preds st)
         (setServedWeek
            (if String.eqb (currentMode p) "spike"
             then servedWeekOf resp else servedWeek st)
            (setPredsByName (newMap preds) st))).
Proof.
  intros H Hp. unfold paintChoropleth_resume, finallyBlock. rewrite H.
  rewrite (spikeBranch_accepted _ preds), (forecastBranch_accepted _ preds)
    by done.
  destruct (String.eqb _ _);
    cbn [requestIdRef setFeatureStore setServedWeek setPredsByName];
    rewrite Nat.eqb_refl; by destruct st.
Qed.

Lemma errorText_nonempty message : errorText message ≠ "".
Proof.
  unfold errorText. destruct message as [s|]; [|done].
  destruct (String.eqb s "") eqn:E; [done|]. by apply String.eqb_neq in E.
Qed.


Lemma paintChoropleth_noop mode st :
  mapRef st = false ∨ getSource st = false →
  paintChoropleth mode st = (st, None).
Proof.
  intros [H|H]; unfold paintChoropleth; rewrite H; [done|].
  by destruct (mapRef st).
Qed.

End Continuation.

(** ** Superseded and current continuations *)

Section Epochs.

(** The five ways a continuation can go: accepted, current with a payload
    without predictions, current and rejected, superseded and fulfilled,
    superseded and rejected. Each occurrence of the continuation in the goal
    is replaced by its outcome. *)
Ltac resume_cases p r st :=
  let Hc := fresh "Hc" in
  let Hp := fresh "Hp" in
  let resp := fresh "resp" in
  let preds := fresh "preds" in
  let msg := fresh "msg" in
  destruct (decide (rid p = requestIdRef st)) as [Hc|Hc];
  destruct r as [resp|msg];
  [ destruct (predictions resp) as [preds|] eqn:Hp;
    [ rewrite !(resume_accepted _ _ preds) by done
    | rewrite !resume_current_malformed by done ]
  | rewrite !resume_current_rejected by done
  | rewrite !resume_stale_fulfilled by done
  | rewrite !resume_stale_rejected by done ].

Lemma resume_requestId p r st :
  requestIdRef (paintChoropleth_resume p r st) = requestIdRef st.
Proof. by resume_cases p r st. Qed.


(** A continuation whose epoch is no longer the last issued leaves the
    map, the cache and the served week alone, however its fetch settled. *)
Lemma resume_stale_visual p r st :
  rid p ≠ requestIdRef st →
  visual (paintChoropleth_resume p r st) = visual st.
Proof.
  intros Hs. destruct r as [resp|msg].
  - by rewrite resume_stale_fulfilled.
  - by rewrite resume_stale_rejected.
Qed.

(** What a continuation paints does not depend on the error message on
    display. *)
Lemma resume_setErr_visual p r e st :
  visual (paintChoropleth_resume p r (setErr e st))
  = visual (paintChoropleth_resume p r st).
Proof. by resume_cases p r st. Qed.

Lemma paintChoropleth_Some mode st st' p :
  paintChoropleth mode st = (st', Some p) →
  rid p = S (requestIdRef st) ∧ requestIdRef st' = S (requestIdRef st)
  ∧ currentMode p = mode ∧ servedWeek st' = None
  ∧ mapRef st = true ∧ getSource st = true.
Proof.
  unfold paintChoropleth.
  destruct (mapRef st) eqn:Hm, (getSource st) eqn:Hg; simpl;
    intros H; inversion H; subst; done.
Qed.

End Epochs.

(** ** Runs *)

Section Runs.

Lemma paintChoropleth_cases mode st :
  (paintChoropleth mode st = (st, None))
  ∨ (∃ st' p, paintChoropleth mode st = (st', Some p)).
Proof.
  unfold paintChoropleth.
  destruct (negb (mapRef st) || negb (getSource st)); [by left|].
  right. by eexists _, _.
Qed.

Lemma onLoad_unfold raw mode st :
  ∃ st0, onLoad raw mode st = paintChoropleth mode st0
         ∧ requestIdRef st0 = requestIdRef st.
Proof.
  unfold onLoad. destruct (mapFeatures 0 raw (idMapRef st)) as [fs m].
  eexists. split; [reflexivity|]. by destruct (source_neigh _).
Qed.

(** The counter never goes back. *)
Lemma step_requestId_le c ev :
  (requestIdRef c.1 ≤ requestIdRef (step c ev).1)%nat.
Proof.
  destruct c as [st log], ev as [|raw mode|mode|p r]; simpl.
  - by destruct (mapRef st).
  - destruct (mapRef st); [|done].
    destruct (onLoad_unfold raw mode st) as (st0 & -> & <-).
    destruct (paintChoropleth_cases mode st0) as [->|(st' & p & H)]; [done|].
    rewrite H. apply paintChoropleth_Some in H. simpl. lia.
  - destruct (paintChoropleth_cases mode st) as [->|(st' & p & H)]; [done|].
    rewrite H. apply paintChoropleth_Some in H. simpl. lia.
  - by rewrite resume_requestId.
Qed.

Lemma steps_requestId_le evs : ∀ c,
  (requestIdRef c.1 ≤ requestIdRef (foldl step c evs).1)%nat.
Proof.
  induction evs as [|ev evs IH]; intros c; simpl; [done|].
  etrans; [apply (step_requestId_le c ev)|apply IH].
Qed.

(** The log of suspended calls lists the epochs 1, 2, ... up to the
    counter. *)
Lemma step_log c ev :
  rid <$> c.2 = seq 1 (requestIdRef c.1) →
  rid <$> (step c ev).2 = seq 1 (requestIdRef (step c ev).1).
Proof.
  assert (∀ mode st0 (log : list Pending) n,
    requestIdRef st0 = n → rid <$> log = seq 1 n →
    rid <$> (log ++ option_to_list (paintChoropleth mode st0).2)%list
    = seq 1 (requestIdRef (paintChoropleth mode st0).1)) as Hpaint.
  { intros mode st0 log n Hn Hlog.
    destruct (paintChoropleth_cases mode st0) as [->|(st' & p & H)]; simpl.
    - by rewrite app_nil_r, Hn.
    - rewrite H. apply paintChoropleth_Some in H as (Hr & Hq & _). simpl.
      rewrite fmap_app, Hlog, Hq, Hn, seq_S. simpl. by rewrite Hr, Hn. }
  destruct c as [st log], ev as [|raw mode|mode|p r]; simpl; intros Hlog.
  - by destruct (mapRef st).
  - destruct (mapRef st); [|done].
    destruct (onLoad_unfold raw mode st) as (st0 & -> & Hst0).
    specialize (Hpaint mode st0 log _ Hst0 Hlog).
    by destruct (paintChoropleth mode st0).
  - specialize (Hpaint mode st log _ eq_refl Hlog).
    by destruct (paintChoropleth mode st).
  - by rewrite resume_requestId.
Qed.

Lemma run_snoc evs ev : run (evs ++ [ev]) = step (run evs) ev.
Proof. unfold run. by rewrite foldl_app. Qed.

Lemma run_log evs :
  rid <$> (run evs).2 = seq 1 (requestIdRef (run evs).1).
Proof.
  induction evs as [|ev evs IH] using rev_ind; [done|].
  rewrite run_snoc. by apply step_log.
Qed.

End Runs.

(** ** The synchroniser *)

(** C1. Issuance order wins: when epoch e1 is issued and, after any further
    events, epoch e2 is issued before e1's fetch has settled, then whichever
    of the two fetches settles first, the map, the prediction cache and the
    served week end up as e2's continuation alone leaves them (for a
    response with predictions: the painted risks and the cache of e2's
    data); and a continuation whose epoch is no longer the last issued
    changes none of the three. *)
Theorem issuance_order_wins
  mode1 mode2 st st1 log evs st2 p1 p2 r1 r2 :
  paintChoropleth mode1 st = (st1, Some p1) →
  paintChoropleth mode2 (foldl step (st1, log) evs).1 = (st2, Some p2) →
  let only2 := paintChoropleth_resume p2 r2 st2 in
  visual (paintChoropleth_resume p1 r1 only2) = visual only2
  ∧ visual (paintChoropleth_resume p2 r2 (paintChoropleth_resume p1 r1 st2))
    = visual only2
  ∧ (∀ resp preds, r2 = Fulfilled resp → predictions resp = Some preds →
       featureState only2 = painted preds st2
       ∧ predsByNameRef only2 = newMap preds)
  ∧ (∀ p r s, rid p ≠ requestIdRef s →
       visual (paintChoropleth_resume p r s) = visual s).
Proof.
  intros H1 H2 only2.
  apply paintChoropleth_Some in H1 as (Hr1 & Hq1 & _).
  apply paintChoropleth_Some in H2 as (Hr2 & Hq2 & _).
  pose proof (steps_requestId_le evs (st1, log)) as Hle. simpl in Hle.
  assert (rid p1 ≠ requestIdRef st2) as Hstale by lia.
  assert (rid p2 = requestIdRef st2) as Hcur by lia.
  repeat split.
  - apply resume_stale_visual. unfold only2. by rewrite resume_requestId.
  - destruct r1 as [resp1|msg1].
    + by rewrite resume_stale_fulfilled.
    + rewrite resume_stale_rejected by done. apply resume_setErr_visual.
  - subst r2. unfold only2. by rewrite (resume_accepted _ _ preds).
  - subst r2. unfold only2. by rewrite (resume_accepted _ _ preds).
  - intros p r s. apply resume_stale_visual.
Qed.

Lemma issuance_order_wins_witness :
  visual (paintChoropleth_resume Demo.second (Fulfilled Demo.forecast80)
            (paintChoropleth_resume Demo.third (Fulfilled Demo.spike62)
               Demo.afterThird))
  = visual (paintChoropleth_resume Demo.third (Fulfilled Demo.spike62)
              Demo.afterThird)
  ∧ visual (paintChoropleth_resume Demo.third (Fulfilled Demo.spike62)
              (paintChoropleth_resume Demo.second (Fulfilled Demo.forecast80)
                 Demo.afterThird))
    = visual (paintChoropleth_resume Demo.third (Fulfilled Demo.spike62)
                Demo.afterThird).
Proof.
  pose proof (issuance_order_wins "forecast" "spike" Demo.loaded
                Demo.afterSecond [] [] Demo.afterThird
                Demo.second Demo.third
                (Fulfilled Demo.forecast80) (Fulfilled Demo.spike62)
                eq_refl eq_refl) as H.
  exact (conj (proj1 H) (proj1 (proj2 H))).
Defined.

(** C4, on the code: the [catch] block does not compare epochs. Epoch 2 is
    superseded by epoch 3, its fetch then fails, and the message is put on
    display all the same. *)
Theorem superseded_failure_is_displayed :
  isCurrent (rid Demo.second) Demo.afterThird = false
  ∧ err Demo.afterThird = ""
  ∧ err (paintChoropleth_resume Demo.second (Rejected (Some "Network Error"))
           Demo.afterThird) = "Network Error".
Proof. by vm_compute. Qed.

(** C5. Failure atomicity: when the fetch of the epoch that is still the
    last issued fails, a non-empty message is put on display, and the
    prediction cache and the risk of every slot are those of the state
    before (as are the index, the counter and the served week); the same
    holds when the fetch succeeds with a payload that has no predictions
    array. The loading flag is cleared. *)
Theorem failure_atomicity p message st :
  rid p = requestIdRef st →
  let st' := paintChoropleth_resume p (Rejected message) st in
  err st' = errorText message ∧ err st' ≠ ""
  ∧ predsByNameRef st' = predsByNameRef st
  ∧ featureState st' = featureState st
  ∧ servedWeek st' = servedWeek st
  ∧ loading st' = false
  ∧ (∀ resp, predictions resp = None →
       let st'' := paintChoropleth_resume p (Fulfilled resp) st in
       err st'' ≠ "" ∧ predsByNameRef st'' = predsByNameRef st
       ∧ featureState st'' = featureState st).
Proof.
  intros Hc st'. unfold st'. rewrite resume_current_rejected by done.
  repeat split; try done.
  - apply errorText_nonempty.
  - rewrite resume_current_malformed by done. apply errorText_nonempty.
  - by rewrite resume_current_malformed.
  - by rewrite resume_current_malformed.
Qed.

Lemma failure_atomicity_witness :
  err (paintChoropleth_resume Demo.third (Rejected (Some "timeout of 15000ms exceeded"))
         Demo.afterThird) = "timeout of 15000ms exceeded"
  ∧ featureState (paintChoropleth_resume Demo.third
                    (Rejected (Some "timeout of 15000ms exceeded"))
                    Demo.afterThird)
    = featureState Demo.afterThird.
Proof.
  pose proof (failure_atomicity Demo.third
                (Some "timeout of 15000ms exceeded") Demo.afterThird eq_refl)
    as (H1 & _ & _ & H2 & _).
  exact (conj H1 H2).
Defined.

(** C7. The request sequencer: over every run of the component from its
    initial state, the epochs issued so far are exactly 1, 2, ..., n in the
    order of issue, where n is the counter (so they start at 1, strictly
    increase, and none is issued twice); an epoch is current if and only if
    it equals the counter, which for an issued epoch means it is the most
    recently issued one; and the next issue returns the counter plus one,
    which is then current while every epoch issued before no longer is. *)
Theorem request_sequencer_contract evs :
  let st := (run evs).1 in
  let epochs := rid <$> (run evs).2 in
  epochs = seq 1 (requestIdRef st)
  ∧ (∀ i j a b, epochs !! i = Some a → epochs !! j = Some b →
       i < j → a < b)
  ∧ NoDup epochs
  ∧ (∀ e, isCurrent e st = true ↔ e = requestIdRef st)
  ∧ (∀ e, e ∈ epochs → (isCurrent e st = true ↔ last epochs = Some e))
  ∧ (∀ mode st' p', paintChoropleth mode st = (st', Some p') →
       rid p' = S (requestIdRef st)
       ∧ isCurrent (rid p') st' = true
       ∧ ∀ e, e ∈ epochs → isCurrent e st' = false).
Proof.
  intros st epochs.
  assert (epochs = seq 1 (requestIdRef st)) as Hlog by apply run_log.
  assert (∀ i a, epochs !! i = Some a → a = S i ∧ i < requestIdRef st)
    as Hnth.
  { intros i a. rewrite Hlog. intros Ha.
    apply lookup_seq in Ha as [-> Hi]. done. }
  split; [done|]. split; [|split; [|split; [|split]]].
  - intros i j a b Ha%Hnth Hb%Hnth. lia.
  - rewrite Hlog. apply NoDup_seq.
  - intros e. unfold isCurrent. apply Nat.eqb_eq.
  - intros e He. unfold isCurrent. rewrite Nat.eqb_eq.
    rewrite Hlog in He |- *. apply elem_of_seq in He.
    destruct (requestIdRef st) as [|n]; [lia|].
    rewrite seq_S, last_snoc. simpl. split; [congruence|]. by intros [= ->].
  - intros mode st' p' (Hr & Hq & _)%paintChoropleth_Some.
    split; [done|]. unfold isCurrent. rewrite Hr, Hq. split.
    + apply Nat.eqb_refl.
    + intros e He. rewrite Hlog in He. apply elem_of_seq in He.
      apply Nat.eqb_neq. lia.
Qed.

Lemma request_sequencer_contract_witness :
  rid <$> (run [MapCreated; Loaded Demo.regions "forecast";
                Changed "forecast"; Changed "spike"]).2 = [1; 2; 3]
  ∧ isCurrent 3 (run [MapCreated; Loaded Demo.regions "forecast";
                      Changed "forecast"; Changed "spike"]).1 = true.
Proof.
  pose proof (request_sequencer_contract
                [MapCreated; Loaded Demo.regions "forecast";
                 Changed "forecast"; Changed "spike"]) as (H1 & _ & _ & H2 & _).
  split; [exact H1|]. apply (proj2 (H2 3)). reflexivity.
Defined.

(** C8. The served week: the prefix of every synchronisation attempt that
    issues an epoch sets it to null; an accepted spike response sets it to
    the response's [served_week] when that is a non-empty string and to
    null otherwise; an accepted forecast response, a failed fetch and a
    superseded continuation leave it as it is; hence a continuation that
    ends with a served week it did not start with is an accepted spike
    response carrying that very [served_week]. *)
Theorem served_week_lifecycle :
  (∀ mode st st' p,
     paintChoropleth mode st = (st', Some p) → servedWeek st' = None)
  ∧ (∀ p resp preds st,
       rid p = requestIdRef st → currentMode p = "spike" →
       predictions resp = Some preds →
       servedWeek (paintChoropleth_resume p (Fulfilled resp) st)
       = servedWeekOf resp
       ∧ (served_week resp = None → servedWeekOf resp = None)
       ∧ (∀ w, servedWeekOf resp = Some w → served_week resp = Some w))
  ∧ (∀ p resp st,
       currentMode p ≠ "spike" →
       servedWeek (paintChoropleth_resume p (Fulfilled resp) st)
       = servedWeek st)
  ∧ (∀ p message st,
       servedWeek (paintChoropleth_resume p (Rejected message) st)
       = servedWeek st)
  ∧ (∀ p r st,
       rid p ≠ requestIdRef st →
       servedWeek (paintChoropleth_resume p r st) = servedWeek st)
  ∧ (∀ p r st w,
       servedWeek (paintChoropleth_resume p r st) = Some w →
       servedWeek st ≠ Some w →
       ∃ resp, r = Fulfilled resp ∧ currentMode p = "spike"
               ∧ rid p = requestIdRef st ∧ served_week resp = Some w).
Proof.
  assert (∀ resp w, servedWeekOf resp = Some w → served_week resp = Some w)
    as Hof.
  { intros resp w. unfold servedWeekOf.
    destruct (served_week resp) as [v|]; [|done].
    by destruct (String.eqb v ""). }
  assert (∀ p r st, rid p ≠ requestIdRef st →
            servedWeek (paintChoropleth_resume p r st) = servedWeek st)
    as Hstale.
  { intros p r st Hs.
    pose proof (resume_stale_visual p r st Hs) as Hv. by inversion Hv. }
  assert (∀ p message st,
            servedWeek (paintChoropleth_resume p (Rejected message) st)
            = servedWeek st) as Hrej.
  { intros p message st.
    destruct (decide (rid p = requestIdRef st)) as [Hc|Hs]; [|by apply Hstale].
    by rewrite resume_current_rejected. }
  assert (∀ p resp st, rid p = requestIdRef st → predictions resp = None →
            servedWeek (paintChoropleth_resume p (Fulfilled resp) st)
            = servedWeek st) as Hmal.
  { intros p resp st Hc Hp. by rewrite resume_current_malformed. }
  split; [|split; [|split; [|split; [|split]]]].
  - by intros mode st st' p (_ & _ & _ & H & _)%paintChoropleth_Some.
  - intros p resp preds st Hc Hm Hp. split; [|split].
    + rewrite (resume_accepted _ _ preds) by done. by rewrite Hm.
    + intros H. unfold servedWeekOf. by rewrite H.
    + apply Hof.
  - intros p resp st Hm.
    destruct (decide (rid p = requestIdRef st)) as [Hc|Hs]; [|by apply Hstale].
    destruct (predictions resp) as [preds|] eqn:Hp; [|by apply Hmal].
    rewrite (resume_accepted _ _ preds) by done.
    apply String.eqb_neq in Hm. by rewrite Hm.
  - done.
  - done.
  - intros p r st w Hw Hne.
    destruct (decide (rid p = requestIdRef st)) as [Hc|Hs];
      [|by rewrite Hstale in Hw].
    destruct r as [resp|message]; [|by rewrite Hrej in Hw].
    destruct (predictions resp) as [preds|] eqn:Hp;
      [|by rewrite Hmal in Hw].
    rewrite (resume_accepted _ _ preds) in Hw by done. simpl in Hw.
    destruct (String.eqb (currentMode p) "spike") eqn:Hm; [|done].
    apply String.eqb_eq in Hm. exists resp. repeat split; try done.
    by apply Hof.
Qed.

Lemma served_week_lifecycle_witness :
  servedWeek Demo.afterThird = None
  ∧ servedWeek (paintChoropleth_resume Demo.third (Fulfilled Demo.spike62)
                  Demo.afterThird) = Some "2024-W09".
Proof.
  destruct served_week_lifecycle as (H1 & H2 & _).
  split.
  - exact (H1 "spike" Demo.afterSecond Demo.afterThird Demo.third eq_refl).
  - exact (proj1 (H2 Demo.third Demo.spike62 _ Demo.afterThird
                    eq_refl eq_refl eq_refl)).
Defined.

(** C9. The two branches agree: for the same epoch and the same state, a
    spike response and a forecast response with the same predictions array
    leave the same risk on every slot and the same cache, message, loading
    flag, counter and index; the forecast continuation does not touch the
    served week, and the spike continuation is the forecast one followed by
    its write of the served week. *)
Theorem mode_branch_equivalence p q resp data st :
  rid p = rid q → currentMode p = "spike" → currentMode q ≠ "spike" →
  predictions resp = predictions data →
  let s := paintChoropleth_resume p (Fulfilled resp) st in
  let f := paintChoropleth_resume q (Fulfilled data) st in
  featureState s = featureState f
  ∧ (∀ slot, featureState s !! slot = featureState f !! slot)
  ∧ predsByNameRef s = predsByNameRef f
  ∧ servedWeek f = servedWeek st
  ∧ s = setServedWeek (servedWeek s) f.
Proof.
  intros Hrid Hp Hq Hpreds s f. unfold s, f.
  assert (∀ x, x = setServedWeek (servedWeek x) x) as Heta
    by (by intros []).
  apply String.eqb_neq in Hq.
  destruct (decide (rid p = requestIdRef st)) as [Hc|Hs].
  - destruct (predictions data) as [preds|] eqn:Hd.
    + rewrite (resume_accepted p _ preds), (resume_accepted q _ preds)
        by congruence.
      rewrite Hq. by destruct st.
    + by rewrite !resume_current_malformed by congruence.
  - rewrite !resume_stale_fulfilled by congruence.
    repeat split; first [done|apply Heta].
Qed.

Lemma mode_branch_equivalence_witness :
  featureState
    (paintChoropleth_resume Demo.third (Fulfilled Demo.spike62)
       Demo.afterThird)
  = featureState
      (paintChoropleth_resume {| rid := 3; currentMode := "forecast" |}
         (Fulfilled {| predictions := predictions Demo.spike62;
                       served_week := None |})
         Demo.afterThird).
Proof.
  refine (proj1 (mode_branch_equivalence Demo.third
                   {| rid := 3; currentMode := "forecast" |}
                   Demo.spike62
                   {| predictions := predictions Demo.spike62;
                      served_week := None |}
                   Demo.afterThird eq_refl eq_refl _ eq_refl)).
  simpl. discriminate.
Defined.

(** C10. Before the map or its region source exists, a call of
    [paintChoropleth] returns without suspending and leaves the whole state
    as it was: no epoch is issued, the loading flag, the message and the
    served week keep their values. *)
Theorem pre_initialization_noop mode st :
  mapRef st = false ∨ source_neigh st = None →
  paintChoropleth mode st = (st, None)
  ∧ (∀ log, step (st, log) (Changed mode) = (st, log)).
Proof.
  intros H.
  assert (paintChoropleth mode st = (st, None)) as Hno.
  { apply paintChoropleth_noop. destruct H as [H|H]; [by left|right].
    unfold getSource. by rewrite H. }
  split; [done|]. intros log. simpl. rewrite Hno. simpl.
  by rewrite app_nil_r.
Qed.

Lemma pre_initialization_noop_witness :
  paintChoropleth "spike" (setMapRef true initialState)
  = (setMapRef true initialState, None).
Proof.
  exact (proj1 (pre_initialization_noop "spike" (setMapRef true initialState)
                  (or_intror eq_refl))).
Defined.

(** ** Accepted responses *)

Section Accepted.

Lemma newMap_from_absent preds : ∀ (m : gmap string Prediction) k,
  (∀ q, q ∈ preds → JS.String (neighborhood_id q) ≠ k) →
  foldl (fun m p => <[JS.String (neighborhood_id p) := p]> m) m preds !! k
  = m !! k.
Proof.
  induction preds as [|q preds IH]; intros m k Habs; simpl; [done|].
  rewrite IH.
  - apply lookup_insert_ne. apply Habs. by left.
  - intros q' Hq'. apply Habs. by right.
Qed.

Lemma newMap_absent preds k :
  (∀ q, q ∈ preds → JS.String (neighborhood_id q) ≠ k) →
  newMap preds !! k = None.
Proof.
  intros H. unfold newMap. by rewrite newMap_from_absent.
Qed.

Lemma newMap_from_present preds : ∀ (m : gmap string Prediction) k pr,
  foldl (fun m p => <[JS.String (neighborhood_id p) := p]> m) m preds !! k
  = Some pr →
  (pr ∈ preds ∧ JS.String (neighborhood_id pr) = k) ∨ m !! k = Some pr.
Proof.
  induction preds as [|q preds IH]; intros m k pr; simpl; [by right|].
  intros [[Hin Hk]|Hm]%IH.
  - left. split; [by right|done].
  - destruct (decide (JS.String (neighborhood_id q) = k)) as [Heq|Hne].
    + rewrite Heq, lookup_insert_eq in Hm. inversion Hm; subst.
      left. split; [by left|done].
    + rewrite lookup_insert_ne in Hm by done. by right.
Qed.

Lemma newMap_present preds k pr :
  newMap preds !! k = Some pr →
  pr ∈ preds ∧ JS.String (neighborhood_id pr) = k.
Proof.
  intros [H|H]%newMap_from_present; [done|by rewrite lookup_empty in H].
Qed.

Lemma riskFor_absent byName k : byName !! k = None → riskFor byName k = JS.zero.
Proof. intros H. unfold riskFor. by rewrite H. Qed.

Lemma entries_slot (o : gmap string nat) s :
  s ∈ (Object_entries o).*2 ↔ ∃ k, o !! k = Some s.
Proof.
  unfold Object_entries. rewrite list_elem_of_fmap. split.
  - intros ([k i] & -> & H%elem_of_map_to_list). by exists k.
  - intros [k H]. exists (k, s). split; [done|].
    by apply elem_of_map_to_list.
Qed.

(** The store an accepted response leaves, slot by slot, for the index of
    a region collection. *)
Lemma painted_indexed regions preds st k s :
  indexedBy regions st → idMapRef st !! k = Some s →
  painted preds st !! s = Some (riskFor (newMap preds) k).
Proof.
  intros [Hidx _] Hk. unfold painted. apply paintStore_in.
  - apply entries_NoDup_slots. rewrite Hidx. apply buildIndex_inj.
  - by apply elem_of_map_to_list.
Qed.

Lemma painted_unindexed regions preds st s :
  indexedBy regions st → (∀ k, idMapRef st !! k ≠ Some s) →
  painted preds st !! s
  = if decide (s < length regions) then Some JS.zero
    else featureState st !! s.
Proof.
  intros [_ Hcount] Hs. unfold painted.
  rewrite paintStore_notin.
  - by rewrite resetStore_lookup, Hcount.
  - rewrite entries_slot. intros [k Hk]. by apply (Hs k).
Qed.

(** Any enumeration order of the index paints the same store. *)
Lemma painted_any_order regions st byName es fs :
  indexedBy regions st → es ≡ₚ Object_entries (idMapRef st) →
  paintStore byName es fs
  = paintStore byName (Object_entries (idMapRef st)) fs.
Proof.
  intros [Hidx _] Hp. symmetry. apply paintLoop_Permutation; [|done].
  apply entries_NoDup_slots. rewrite Hidx. apply buildIndex_inj.
Qed.

End Accepted.

(** C2. Completeness of reset: an accepted response leaves on the map the
    store obtained by writing 0 to every slot below the feature count and
    then, for every (key, slot) of the region index, the risk of the
    response's record for that key, 0 when there is none (a record's risk is
    written as [Number(risk)] when that is finite, as 0 otherwise). So a
    slot below the count that no key leads to holds 0, and the slot of every
    region whose key is absent from the response holds 0, whatever it held
    before. *)
Theorem completeness_of_reset regions p resp preds st :
  indexedBy regions st →
  rid p = requestIdRef st →
  predictions resp = Some preds →
  let st' := paintChoropleth_resume p (Fulfilled resp) st in
  featureState st'
  = paintStore (newMap preds) (Object_entries (idMapRef st))
      (resetStore (featureCountRef st) (featureState st))
  ∧ (∀ s, s < featureCountRef st →
       resetStore (featureCountRef st) (featureState st) !! s
       = Some JS.zero)
  ∧ (∀ k s, idMapRef st !! k = Some s →
       featureState st' !! s = Some (riskFor (newMap preds) k))
  ∧ (∀ s, s < length regions → (∀ k, idMapRef st !! k ≠ Some s) →
       featureState st' !! s = Some JS.zero)
  ∧ (∀ i f, regions !! i = Some f →
       (∀ q, q ∈ preds →
          JS.String (neighborhood_id q) ≠ featureKey f i) →
       featureState st' !! i = Some JS.zero).
Proof.
  intros Hidx Hc Hp st'.
  assert (featureState st' = painted preds st) as Hst'.
  { unfold st'. by rewrite (resume_accepted _ _ preds). }
  assert (∀ s, s < length regions → (∀ k, idMapRef st !! k ≠ Some s) →
            featureState st' !! s = Some JS.zero) as Hun.
  { intros s Hs Hno. rewrite Hst', (painted_unindexed regions) by done.
    by destruct (decide (s < length regions)). }
  split; [done|]. split; [|split; [|split; [done|]]].
  - intros s Hs. rewrite resetStore_lookup.
    by destruct (decide (s < featureCountRef st)).
  - intros k s Hk. rewrite Hst'. by apply (painted_indexed regions).
  - intros i f Hf Habs.
    destruct (decide (idMapRef st !! featureKey f i = Some i)) as [Hk|Hk].
    + rewrite Hst', (painted_indexed regions _ _ _ _ Hidx Hk).
      by rewrite riskFor_absent by by apply newMap_absent.
    + apply Hun; [by apply lookup_lt_Some in Hf|].
      intros k Hki. apply Hk. destruct Hidx as [Hi _]. rewrite Hi in Hki |- *.
      pose proof Hki as (_ & g & Hg & <- & _)%buildIndex_lookup. congruence.
Qed.

Lemma completeness_of_reset_witness :
  featureState Demo.reissued !! 0 = Some (JS.Finite 80)
  ∧ featureState
      (paintChoropleth_resume Demo.second (Fulfilled Demo.soma41)
         Demo.reissued) !! 0 = Some JS.zero.
Proof.
  split; [reflexivity|].
  refine (proj2 (proj2 (proj2 (proj2
            (completeness_of_reset Demo.regions Demo.second Demo.soma41 _
               Demo.reissued (conj eq_refl eq_refl) eq_refl eq_refl))))
            0 (Demo.named "Mission") eq_refl _).
  intros q Hq. apply list_elem_of_singleton in Hq. by subst q.
Defined.

(** C3, as the code has it: for a key of the region index, an accepted
    response renders 0 on its slot when the response has no record for the
    key or when [Number] of the record's risk is not finite (NaN, which
    includes a missing risk, or an infinity), and renders every finite risk
    unchanged, be it negative or above 100. *)
Theorem risk_coercion regions p resp preds st k s :
  indexedBy regions st →
  rid p = requestIdRef st →
  predictions resp = Some preds →
  idMapRef st !! k = Some s →
  let rendered :=
    featureState (paintChoropleth_resume p (Fulfilled resp) st) !! s in
  ((∀ q, q ∈ preds → JS.String (neighborhood_id q) ≠ k) →
     rendered = Some JS.zero)
  ∧ (∀ pr, newMap preds !! k = Some pr →
       (JS.isFinite (JS.Number (risk pr)) = false → rendered = Some JS.zero)
       ∧ (risk pr = JS.Num JS.NaN → rendered = Some JS.zero)
       ∧ (risk pr = JS.Undefined → rendered = Some JS.zero)
       ∧ (∀ x, risk pr = JS.Num (JS.Finite x) →
            rendered = Some (JS.Finite x))).
Proof.
  intros Hidx Hc Hp Hk rendered.
  assert (rendered = Some (riskFor (newMap preds) k)) as ->.
  { unfold rendered. rewrite (resume_accepted _ _ preds) by done.
    by apply (painted_indexed regions). }
  split.
  - intros Habs. by rewrite riskFor_absent by by apply newMap_absent.
  - intros pr Hpr. unfold riskFor. rewrite Hpr. repeat split.
    + by intros ->.
    + by intros ->.
    + by intros ->.
    + by intros x ->.
Qed.

Lemma risk_coercion_witness :
  featureState
    (paintChoropleth_resume Demo.first (Fulfilled Demo.negative)
       Demo.loaded) !! 1 = Some (JS.Finite 137).
Proof.
  refine (proj2 (proj2 (proj2 (proj2
            (risk_coercion Demo.regions Demo.first Demo.negative _
               Demo.loaded "SoMa" 1 (conj eq_refl eq_refl) eq_refl eq_refl
               eq_refl) (Demo.prediction "SoMa" 137) eq_refl))) 137%Q eq_refl).
Defined.

(** C3, as stated, fails: the response [Demo.negative] is accepted and
    carries the risk -5 for "Mission"; slot 0 is then rendered with -5, not
    with 0. *)
Lemma negative_risk_is_rendered :
  isCurrent (rid Demo.first) Demo.loaded = true
  ∧ idMapRef Demo.loaded !! "Mission" = Some 0
  ∧ featureState
      (paintChoropleth_resume Demo.first (Fulfilled Demo.negative)
         Demo.loaded) !! 0 = Some (JS.Finite (-5))
  ∧ featureState
      (paintChoropleth_resume Demo.first (Fulfilled Demo.negative)
         Demo.loaded) !! 0 ≠ Some JS.zero.
Proof. repeat split; try reflexivity. by vm_compute. Qed.

(** ** Building the index *)

Section Build.

(** Regions that do not derive a key leave its entry alone. *)
Lemma mapFeatures_index_free fs : ∀ i (m : gmap string nat) k,
  keyFree k i fs → (mapFeatures i fs m).2 !! k = m !! k.
Proof.
  induction fs as [|f fs IH]; intros i m k Hfree; [done|].
  apply keyFree_cons in Hfree as [Hne Hfree].
  rewrite mapFeatures_cons. cbn [snd]. rewrite IH by done.
  by apply assign_lookup_ne.
Qed.

Lemma mapFeatures_index_None fs : ∀ i m k,
  k ≠ "__proto__" →
  (mapFeatures i fs m).2 !! k = None ↔ m !! k = None ∧ keyFree k i fs.
Proof.
  induction fs as [|f fs IH]; intros i m k Hk.
  - simpl. split; [|by intros [? _]]. intros H. split; [done|].
    by intros j f Hf.
  - rewrite mapFeatures_cons. cbn [snd]. rewrite IH, keyFree_cons by done.
    split.
    + intros [Hm Hfree].
      destruct (decide (featureKey f i = k)) as [Heq|Hne].
      * rewrite Heq, assign_lookup_eq in Hm by done. discriminate.
      * rewrite assign_lookup_ne in Hm by done. done.
    + intros [Hm [Hne Hfree]]. by rewrite assign_lookup_ne.
Qed.

Lemma keyFree_drop k s fs :
  keyFree k (S s) (drop (S s) fs)
  ↔ ∀ j g, s < j → fs !! j = Some g → featureKey g j ≠ k.
Proof.
  unfold keyFree. split.
  - intros H j g Hj Hg. specialize (H (j - S s) g).
    rewrite lookup_drop in H.
    replace (S s + (j - S s)) with j in H by lia. by apply H.
  - intros H j g Hg. rewrite lookup_drop in Hg. apply H; [lia|done].
Qed.

Lemma onLoad_indexedBy raw mode st :
  idMapRef st = ∅ → indexedBy raw (onLoad raw mode st).1.
Proof.
  intros Hempty.
  assert (∀ st0, idMapRef (paintChoropleth mode st0).1 = idMapRef st0
                 ∧ featureCountRef (paintChoropleth mode st0).1
                   = featureCountRef st0) as Hpaint.
  { intros st0.
    destruct (paintChoropleth_cases mode st0) as [->|(st' & p & H)];
      [done|].
    rewrite H. unfold paintChoropleth in H.
    destruct (negb (mapRef st0) || negb (getSource st0)); [done|].
    by inversion H. }
  unfold indexedBy, onLoad, buildIndex. rewrite Hempty.
  pose proof (mapFeatures_length raw 0 ∅) as Hlen.
  destruct (mapFeatures 0 raw ∅) as [features idMap]. simpl in Hlen.
  destruct (Hpaint
    (match source_neigh (setFeatureCount (length features) (setIdMap idMap st))
     with
     | None => setSource (Some features)
                 (setFeatureCount (length features) (setIdMap idMap st))
     | Some _ => setFeatureCount (length features) (setIdMap idMap st)
     end)) as [-> ->].
  by destruct (source_neigh _).
Qed.

End Build.

(** C6, on the code: [idMapRef.current] is a plain object, and the
    assignment [idMapRef.current[key] = idx] stores nothing for the key
    [__proto__]. A region named [__proto__] derives that key and gets slot
    0, but the index has no entry for it; the response has a record for the
    key (the cache, a [Map], holds it), and slot 0 is still rendered with
    0, while the region named "SoMa" is indexed and painted. *)
Theorem proto_region_is_not_indexed :
  featureKey (Demo.named "__proto__") 0 = "__proto__"
  ∧ fid <$> source_neigh Scenes.protoLoaded ≫= (.!! 0) = Some 0
  ∧ featureCountRef Scenes.protoLoaded = 2
  ∧ idMapRef Scenes.protoLoaded !! "__proto__" = None
  ∧ idMapRef Scenes.protoLoaded !! "SoMa" = Some 1
  ∧ predsByNameRef Scenes.protoShown !! "__proto__"
    = Some (Demo.prediction "__proto__" 50)
  ∧ featureState Scenes.protoShown !! 0 = Some JS.zero
  ∧ featureState Scenes.protoShown !! 1 = Some (JS.Finite 20).
Proof. by vm_compute. Qed.

(** X17. The region index as the code builds it: the callback of [onLoad]
    hands the region at position i on with id i, so the slots are 0, ...,
    count - 1 and the count is the length of the collection; the key of a
    region is the string of its name property ([neighborhood || name]) when
    that is neither null nor undefined, else the string of its id when that
    is neither, else the decimal numeral of its position; the key
    [__proto__] is never in the index; every other key of the index leads
    to the last region that derives it, so every region whose key is not
    [__proto__] has its key in the index, with the slot of a later region
    whenever one derives the same key. *)
Theorem region_index_characterised raw :
  let features := (mapFeatures 0 raw ∅).1 in
  let index := buildIndex raw in
  length features = length raw
  ∧ (∀ i f, raw !! i = Some f →
       features !! i = Some (withId f i) ∧ fid (withId f i) = i)
  ∧ (∀ f i,
       (nullish (featureName f) = false →
          featureKey f i = JS.String (featureName f))
       ∧ (nullish (featureName f) = true → nullish (id f) = false →
            featureKey f i = JS.String (id f))
       ∧ (nullish (featureName f) = true → nullish (id f) = true →
            featureKey f i = pretty i))
  ∧ index !! "__proto__" = None
  ∧ (∀ k s, index !! k = Some s ↔
       k ≠ "__proto__"
       ∧ ∃ f, raw !! s = Some f ∧ featureKey f s = k
              ∧ ∀ j g, s < j → raw !! j = Some g → featureKey g j ≠ k)
  ∧ (∀ i f, raw !! i = Some f → featureKey f i ≠ "__proto__" →
       ∃ s, index !! featureKey f i = Some s ∧ (i ≤ s < length raw)%nat)
  ∧ (∀ i j f g, i < j → raw !! i = Some f → raw !! j = Some g →
       featureKey f i = featureKey g j →
       index !! featureKey f i ≠ Some i)
  ∧ (∀ mode st, idMapRef st = ∅ → indexedBy raw (onLoad raw mode st).1).
Proof.
  intros features index.
  assert (∀ k s, index !! k = Some s ↔
            k ≠ "__proto__"
            ∧ ∃ f, raw !! s = Some f ∧ featureKey f s = k
                   ∧ ∀ j g, s < j → raw !! j = Some g → featureKey g j ≠ k)
    as Hlookup.
  { intros k s. unfold index. rewrite buildIndex_lookup.
    by setoid_rewrite keyFree_drop. }
  split; [apply mapFeatures_length|].
  split; [|split; [|split; [apply buildIndex_proto|split; [done|split;
    [|split]]]]].
  - intros i f Hf. unfold features.
    by rewrite mapFeatures_features, Hf.
  - intros f i. unfold featureKey.
    destruct (featureName f), (id f); simpl; repeat split; intros; done.
  - intros i f Hf Hproto.
    destruct (index !! featureKey f i) as [s|] eqn:Hs.
    + exists s. split; [done|].
      pose proof Hs as (_ & g & Hg & Hk & Hlast)%Hlookup.
      split; [|by apply lookup_lt_Some in Hg].
      destruct (decide (i ≤ s)%nat) as [|Hlt]; [done|].
      exfalso. apply (Hlast i f); [lia|done|done].
    + unfold index, buildIndex in Hs.
      apply mapFeatures_index_None in Hs as [_ Hfree]; [|done].
      by destruct (Hfree i f Hf).
  - intros i j f g Hij Hf Hg Hkey (_ & f' & Hf' & _ & Hlast)%Hlookup.
    by apply (Hlast j g).
  - intros mode st. apply onLoad_indexedBy.
Qed.

Lemma region_index_characterised_witness :
  buildIndex [Demo.named "Mission"; Demo.named "SoMa"; Demo.named "Mission"]
    !! "Mission" = Some 2.
Proof.
  apply (proj1 (proj2 (proj2 (proj2 (proj2
           (region_index_characterised
              [Demo.named "Mission"; Demo.named "SoMa";
               Demo.named "Mission"])))))).
  split; [done|].
  exists (Demo.named "Mission"). repeat split.
  intros [|[|[|j]]] g Hj Hg; simpl in Hg; try lia; done.
Defined.

(** The key fallback of the specification: a region without a name and with
    id 7, at position 7 of ten regions, gets slot 7 under the key "7". *)
Example key_fallback :
  let anonymous := {| id := JS.IUndefined; properties := None |} in
  let seventh := {| id := JS.IInt 7 I; properties := None |} in
  let raw :=
    (replicate 7 anonymous ++ [seventh] ++ replicate 2 anonymous)%list in
  featureKey seventh 7 = "7"
  ∧ buildIndex raw !! "7" = Some 7
  ∧ fid <$> (mapFeatures 0 raw ∅).1 !! 7 = Some 7.
Proof. by vm_compute. Qed.

(** The end-to-end scenario of the specification. *)
Example end_to_end :
  let st := paintChoropleth_resume Demo.third (Fulfilled Demo.spike62)
              Demo.afterThird in
  idMapRef st = {[ "Mission" := 0; "SoMa" := 1 ]}
  ∧ featureState st !! 0 = Some (JS.Finite 62)
  ∧ featureState st !! 1 = Some JS.zero
  ∧ servedWeek st = Some "2024-W09"
  ∧ map_to_list (predsByNameRef st)
    = [("Mission", Demo.prediction "Mission" 62)]
  ∧ loading st = false.
Proof. by vm_compute. Qed.

(** * Further properties *)

(** ** The store as a sequence of writes *)

Section Writes.

Lemma applyWrites_app ws1 ws2 fs :
  applyWrites (ws1 ++ ws2) fs = applyWrites ws2 (applyWrites ws1 fs).
Proof. unfold applyWrites. apply foldl_app. Qed.

Lemma resetStore_writes count fs :
  resetStore count fs = applyWrites (resetWrites count) fs.
Proof.
  unfold resetStore, applyWrites, resetWrites.
  generalize (seq 0 count). intros l. revert fs.
  induction l as [|i l IH]; intros fs; simpl; [done|]. apply IH.
Qed.

Lemma paintStore_writes byName entries fs :
  paintStore byName entries fs = applyWrites (paintWrites byName entries) fs.
Proof.
  unfold paintStore, applyWrites, paintWrites. revert fs.
  induction entries as [|e l IH]; intros fs; simpl; [done|]. apply IH.
Qed.

Lemma painted_writes preds st :
  painted preds st
  = applyWrites
      (resetWrites (featureCountRef st)
       ++ paintWrites (newMap preds) (Object_entries (idMapRef st)))
      (featureState st).
Proof.
  unfold painted.
  by rewrite applyWrites_app, paintStore_writes, resetStore_writes.
Qed.

Lemma applyWrites_lookup ws : ∀ fs s,
  applyWrites ws fs !! s
  = match lastWrite s ws with
    | Some v => Some v
    | None => fs !! s
    end.
Proof.
  induction ws as [|[i v] ws IH]; intros fs s; [done|].
  change (applyWrites ((i, v) :: ws) fs) with (applyWrites ws (<[i:=v]> fs)).
  rewrite IH. simpl. destruct (lastWrite s ws) as [v'|]; [done|].
  destruct (decide (i = s)) as [->|Hne].
  - apply lookup_insert_eq.
  - by apply lookup_insert_ne.
Qed.

Lemma lastWrite_elem s ws v : lastWrite s ws = Some v → (s, v) ∈ ws.
Proof.
  induction ws as [|[i x] ws IH]; simpl; [done|].
  destruct (lastWrite s ws) as [v'|].
  - intros [= ->]. right. by apply IH.
  - destruct (decide (i = s)) as [->|]; [|done]. intros [= ->]. by left.
Qed.

Lemma lastWrite_None s ws : lastWrite s ws = None ↔ s ∉ ws.*1.
Proof.
  induction ws as [|[i x] ws IH]; simpl.
  - split; [intros _; apply not_elem_of_nil|done].
  - rewrite not_elem_of_cons, <- IH.
    destruct (lastWrite s ws) as [v'|].
    + split; [done|]. by intros [_ ?].
    + destruct (decide (i = s)) as [->|Hne]; intuition congruence.
Qed.

(** Writing the same sequence twice is writing it once. *)
Lemma applyWrites_idemp ws fs :
  applyWrites ws (applyWrites ws fs) = applyWrites ws fs.
Proof.
  apply map_eq. intros s. rewrite (applyWrites_lookup ws (applyWrites ws fs)).
  destruct (lastWrite s ws) as [v|] eqn:Hw; [|done].
  by rewrite applyWrites_lookup, Hw.
Qed.

(** The slots the two loops write to. *)
Lemma written_slots byName count (o : gmap string nat) s :
  s ∈ (resetWrites count ++ paintWrites byName (Object_entries o))%list.*1
  ↔ s < count ∨ ∃ k, o !! k = Some s.
Proof.
  rewrite fmap_app, elem_of_app. unfold resetWrites, paintWrites.
  rewrite <- !list_fmap_compose.
  rewrite <- entries_slot. split; intros [H|H].
  - left. apply list_elem_of_fmap in H as (i & -> & Hi). simpl.
    apply elem_of_seq in Hi. lia.
  - right. apply list_elem_of_fmap in H as (e & -> & He). simpl.
    apply list_elem_of_fmap. by exists e.
  - left. apply list_elem_of_fmap. exists s. split; [done|].
    apply elem_of_seq. lia.
  - right. apply list_elem_of_fmap in H as (e & -> & He).
    apply list_elem_of_fmap. by exists e.
Qed.

Lemma riskFor_finite byName k : JS.isFinite (riskFor byName k) = true.
Proof.
  unfold riskFor. destruct (byName !! k) as [p|]; [|done].
  by destruct (JS.Number (risk p)).
Qed.

Lemma written_values_finite byName count entries s v :
  (s, v) ∈ (resetWrites count ++ paintWrites byName entries)%list →
  JS.isFinite v = true.
Proof.
  rewrite elem_of_app. unfold resetWrites, paintWrites.
  intros [H|H]; apply list_elem_of_fmap in H as (x & Heq & _);
    inversion Heq; subst; [done|apply riskFor_finite].
Qed.

End Writes.

(** ** Frames of the operations *)

(** The outcomes of a continuation, each rewritten in the goal: accepted,
    current without predictions, current and rejected, superseded. *)
Ltac settle_cases p r st :=
  let Hc := fresh "Hc" in
  let Hp := fresh "Hp" in
  let resp := fresh "resp" in
  let preds := fresh "preds" in
  let msg := fresh "msg" in
  destruct (decide (rid p = requestIdRef st)) as [Hc|Hc];
  destruct r as [resp|msg];
  [ destruct (predictions resp) as [preds|] eqn:Hp;
    [ rewrite !(resume_accepted p resp preds st Hc Hp)
    | rewrite !(resume_current_malformed p resp st Hc Hp) ]
  | rewrite !(resume_current_rejected p msg st Hc)
  | rewrite !(resume_stale_fulfilled p resp st Hc)
  | rewrite !(resume_stale_rejected p msg st Hc) ].

Section Frames.

(** What the prefix of [paintChoropleth] leaves alone. *)
Lemma paintChoropleth_frame mode st :
  let st' := (paintChoropleth mode st).1 in
  featureState st' = featureState st
  ∧ predsByNameRef st' = predsByNameRef st
  ∧ idMapRef st' = idMapRef st
  ∧ featureCountRef st' = featureCountRef st
  ∧ mapRef st' = mapRef st
  ∧ source_neigh st' = source_neigh st.
Proof.
  unfold paintChoropleth.
  by destruct (negb (mapRef st) || negb (getSource st)).
Qed.

(** What [onLoad] leaves alone, and what it sets. *)
Lemma onLoad_frame raw mode st :
  let st' := (onLoad raw mode st).1 in
  featureState st' = featureState st
  ∧ predsByNameRef st' = predsByNameRef st
  ∧ mapRef st' = mapRef st
  ∧ idMapRef st' = (mapFeatures 0 raw (idMapRef st)).2
  ∧ featureCountRef st' = length raw
  ∧ source_neigh st'
    = match source_neigh st with
      | None => Some (mapFeatures 0 raw (idMapRef st)).1
      | Some old => Some old
      end.
Proof.
  unfold onLoad.
  pose proof (mapFeatures_length raw 0 (idMapRef st)) as Hlen.
  destruct (mapFeatures 0 raw (idMapRef st)) as [features idMap].
  simpl in Hlen. cbn [source_neigh setFeatureCount setIdMap].
  destruct (source_neigh st) as [old|] eqn:Hsrc;
    match goal with
    | |- context [paintChoropleth mode ?s] =>
        destruct (paintChoropleth_frame mode s)
          as (-> & -> & -> & -> & -> & ->)
    end; simpl; by rewrite Hlen, ?Hsrc.
Qed.

Lemma resume_frame p r st :
  let st' := paintChoropleth_resume p r st in
  idMapRef st' = idMapRef st
  ∧ featureCountRef st' = featureCountRef st
  ∧ mapRef st' = mapRef st
  ∧ source_neigh st' = source_neigh st.
Proof. cbv zeta. by settle_cases p r st. Qed.

Lemma painted_idemp preds st st1 :
  idMapRef st1 = idMapRef st →
  featureCountRef st1 = featureCountRef st →
  featureState st1 = painted preds st →
  painted preds st1 = painted preds st.
Proof.
  intros Hi Hc Hf. rewrite (painted_writes preds st1), Hi, Hc, Hf.
  rewrite (painted_writes preds st). apply applyWrites_idemp.
Qed.

End Frames.

(** ** Settlements *)

(** X1. Whatever happens to the component, the feature-state store never
    holds a risk that is not finite: every write of the two loops is 0 or a
    number that passed [Number.isFinite]. *)
Theorem store_always_finite evs s x :
  featureState (run evs).1 !! s = Some x → JS.isFinite x = true.
Proof.
  revert s x. induction evs as [|ev evs IH] using rev_ind; intros s x.
  - unfold run. simpl. by rewrite lookup_empty.
  - rewrite run_snoc. destruct (run evs) as [st log]. simpl in IH.
    destruct ev as [|raw mode|mode|p r]; simpl.
    + destruct (mapRef st); [apply IH|]. simpl. by rewrite lookup_empty.
    + destruct (mapRef st); [|apply IH].
      pose proof (onLoad_frame raw mode st) as (Hfs & _).
      destruct (onLoad raw mode st) as [st' q]. simpl in *.
      rewrite Hfs. apply IH.
    + pose proof (paintChoropleth_frame mode st) as (Hfs & _).
      destruct (paintChoropleth mode st) as [st' q]. simpl in *.
      rewrite Hfs. apply IH.
    + settle_cases p r st; simpl; try apply IH.
      rewrite painted_writes, applyWrites_lookup.
      destruct (lastWrite s _) as [v|] eqn:Hw; [|apply IH].
      intros [= <-]. apply lastWrite_elem in Hw.
      by apply written_values_finite in Hw.
Qed.

Lemma store_always_finite_witness :
  JS.isFinite (JS.Finite 62) = true.
Proof.
  apply (store_always_finite
           [MapCreated; Loaded Demo.regions "forecast"; Changed "forecast";
            Changed "spike"; Settle Demo.third (Fulfilled Demo.spike62)]
           0 (JS.Finite 62)).
  reflexivity.
Defined.

(** X2. A settlement that is delivered twice has the effect of one: the
    continuation of [paintChoropleth] is idempotent, for every outcome of
    the fetch and for a current as for a superseded epoch. In particular
    applying the same accepted response twice leaves the same risk on every
    slot. *)
Theorem settlement_idempotent p r st :
  paintChoropleth_resume p r (paintChoropleth_resume p r st)
  = paintChoropleth_resume p r st.
Proof.
  destruct (decide (rid p = requestIdRef st)) as [Hc|Hs];
    destruct r as [resp|msg].
  - destruct (predictions resp) as [preds|] eqn:Hp.
    + rewrite (resume_accepted p resp preds st) by done.
      rewrite (resume_accepted p resp preds) by done.
      cbn [idMapRef featureCountRef servedWeek setLoading setFeatureStore
           setServedWeek setPredsByName].
      rewrite (painted_idemp preds st) by done.
      destruct (String.eqb (currentMode p) "spike"); reflexivity.
    + rewrite (resume_current_malformed p resp st) by done.
      by rewrite resume_current_malformed.
    - rewrite (resume_current_rejected p msg st) by done.
      by rewrite resume_current_rejected.
    - by rewrite !(resume_stale_fulfilled p resp st).
    - rewrite (resume_stale_rejected p msg st) by done.
      by rewrite resume_stale_rejected.
Qed.

(** X3. The frame of an accepted response: a slot that is neither below the
    feature count nor the slot of a key of the index keeps its risk; every
    other slot is written. When no two keys of the index share a slot, the
    slot of a key gets the risk of the response's record for the key, a
    slot below the count that no key leads to gets 0, and so what these
    slots get depends on the response, the index and the count only, not
    on what the store held (nor on the cache, the message or the served
    week). *)
Theorem accepted_store_frame p resp preds st :
  rid p = requestIdRef st →
  predictions resp = Some preds →
  let st' := paintChoropleth_resume p (Fulfilled resp) st in
  (∀ s, ¬ s < featureCountRef st → (∀ k, idMapRef st !! k ≠ Some s) →
     featureState st' !! s = featureState st !! s)
  ∧ (∀ s, s < featureCountRef st ∨ (∃ k, idMapRef st !! k = Some s) →
       is_Some (featureState st' !! s))
  ∧ (∀ s, s < featureCountRef st → (∀ k, idMapRef st !! k ≠ Some s) →
       featureState st' !! s = Some JS.zero)
  ∧ ((∀ k1 k2 s, idMapRef st !! k1 = Some s → idMapRef st !! k2 = Some s →
        k1 = k2) →
     (∀ k s, idMapRef st !! k = Some s →
        featureState st' !! s = Some (riskFor (newMap preds) k))
     ∧ (∀ q other s,
          rid q = requestIdRef other →
          idMapRef other = idMapRef st →
          featureCountRef other = featureCountRef st →
          s < featureCountRef st ∨ (∃ k, idMapRef st !! k = Some s) →
          featureState (paintChoropleth_resume q (Fulfilled resp) other) !! s
          = featureState st' !! s)).
Proof.
  intros Hc Hp st'.
  assert (∀ q other, rid q = requestIdRef other →
            featureState (paintChoropleth_resume q (Fulfilled resp) other)
            = painted preds other) as Hacc.
  { intros q other Hq. by rewrite (resume_accepted q resp preds other). }
  unfold st'. rewrite Hacc by done.
  assert (∀ other s, (∀ k, idMapRef other !! k ≠ Some s) →
            painted preds other !! s
            = if decide (s < featureCountRef other) then Some JS.zero
              else featureState other !! s) as Hun.
  { intros other s Hno. unfold painted. rewrite paintStore_notin.
    - apply resetStore_lookup.
    - rewrite entries_slot. intros [k Hk]. by apply (Hno k). }
  assert (∀ other, (∀ k1 k2 s, idMapRef other !! k1 = Some s →
                      idMapRef other !! k2 = Some s → k1 = k2) →
            ∀ k s, idMapRef other !! k = Some s →
              painted preds other !! s = Some (riskFor (newMap preds) k))
    as Hin.
  { intros other Hinj k s Hk. unfold painted. apply paintStore_in.
    - by apply entries_NoDup_slots.
    - by apply elem_of_map_to_list. }
  split; [|split; [|split]].
  - intros s Hge Hno. rewrite Hun by done.
    by destruct (decide (s < featureCountRef st)).
  - intros s Hs. rewrite painted_writes, applyWrites_lookup.
    apply (written_slots (newMap preds)) in Hs.
    destruct (lastWrite s _) as [v|] eqn:Hw; [by exists v|].
    by apply lastWrite_None in Hw.
  - intros s Hlt Hno. rewrite Hun by done.
    by destruct (decide (s < featureCountRef st)).
  - intros Hinj. split; [by apply Hin|].
    intros q other s Hq Hi Hn Hs. rewrite Hacc by done.
    destruct (decide (s ∈ (Object_entries (idMapRef st)).*2))
      as [[k Hk]%entries_slot|Hno%(not_iff_compat (entries_slot _ _))].
    + rewrite (Hin st Hinj k s Hk). apply Hin; by rewrite Hi.
    + destruct Hs as [Hlt|Hex]; [|done].
      rewrite !Hun.
      * rewrite Hn. by destruct (decide (s < featureCountRef st)).
      * intros k Hk. apply Hno. by exists k.
      * intros k Hk. apply Hno. exists k. by rewrite <- Hi.
Qed.

Lemma accepted_store_frame_witness :
  featureState Scenes.reloaded !! 1 = Some (JS.Finite 15)
  ∧ featureState
      (paintChoropleth_resume Demo.second (Fulfilled Demo.soma41)
         Scenes.reloaded) !! 1
    = Some (JS.Finite 15).
Proof.
  split; [reflexivity|].
  rewrite (proj1 (accepted_store_frame Demo.second Demo.soma41 _
                    Scenes.reloaded eq_refl eq_refl) 1).
  - reflexivity.
  - vm_compute. lia.
  - intros k Hk. apply elem_of_map_to_list in Hk. vm_compute in Hk.
    repeat (apply elem_of_cons in Hk as [Hk|Hk]; [discriminate|]).
    by apply elem_of_nil in Hk.
Defined.

(** X4. The loading flag belongs to the last issued epoch: the prefix of an
    attempt that issues an epoch raises it; the continuation of the epoch
    that is still the last issued lowers it whatever the outcome of its
    fetch; the continuation of a superseded epoch leaves it as it is. *)
Theorem loading_ownership :
  (∀ mode st st' p,
     paintChoropleth mode st = (st', Some p) → loading st' = true)
  ∧ (∀ p r st,
       rid p = requestIdRef st →
       loading (paintChoropleth_resume p r st) = false)
  ∧ (∀ p r st,
       rid p ≠ requestIdRef st →
       loading (paintChoropleth_resume p r st) = loading st).
Proof.
  split; [|split].
  - intros mode st st' p H. unfold paintChoropleth in H.
    destruct (negb (mapRef st) || negb (getSource st)); [done|].
    by inversion H.
  - intros p r st Hc. by settle_cases p r st.
  - intros p r st Hs. by settle_cases p r st.
Qed.

Lemma loading_ownership_witness :
  loading Demo.afterThird = true
  ∧ loading (paintChoropleth_resume Demo.second (Fulfilled Demo.forecast80)
               Demo.afterThird) = true
  ∧ loading (paintChoropleth_resume Demo.third (Rejected None)
               Demo.afterThird) = false.
Proof.
  destruct loading_ownership as (H1 & H2 & H3).
  split; [|split].
  - exact (H1 "spike" Demo.afterSecond Demo.afterThird Demo.third eq_refl).
  - rewrite (H3 Demo.second (Fulfilled Demo.forecast80) Demo.afterThird).
    + exact (H1 "spike" Demo.afterSecond Demo.afterThird Demo.third eq_refl).
    + simpl. lia.
  - exact (H2 Demo.third (Rejected None) Demo.afterThird eq_refl).
Defined.

(** X5. The message: the prefix of an attempt that issues an epoch clears
    it; a fulfilled fetch whose payload has a predictions array never
    changes it, accepted or not; a continuation that changes it leaves a
    non-empty message. *)
Theorem message_lifecycle :
  (∀ mode st st' p,
     paintChoropleth mode st = (st', Some p) → err st' = "")
  ∧ (∀ p resp preds st,
       predictions resp = Some preds →
       err (paintChoropleth_resume p (Fulfilled resp) st) = err st)
  ∧ (∀ p r st,
       err (paintChoropleth_resume p r st) ≠ err st →
       err (paintChoropleth_resume p r st) ≠ ""
       ∧ ((∃ message, r = Rejected message)
          ∨ (∃ resp, r = Fulfilled resp ∧ predictions resp = None
                     ∧ rid p = requestIdRef st))).
Proof.
  split; [|split].
  - intros mode st st' p H. unfold paintChoropleth in H.
    destruct (negb (mapRef st) || negb (getSource st)); [done|].
    by inversion H.
  - intros p resp preds st Hp.
    destruct (decide (rid p = requestIdRef st)) as [Hc|Hs].
    + by rewrite (resume_accepted p resp preds st).
    + by rewrite resume_stale_fulfilled.
  - intros p r st.
    settle_cases p r st;
      cbn [err setErr setLoading setFeatureStore setServedWeek
           setPredsByName];
      intros Hne; try done.
    + split; [apply errorText_nonempty|]. right. by exists resp.
    + split; [apply errorText_nonempty|]. left. by exists msg.
    + split; [apply errorText_nonempty|]. left. by exists msg.
Qed.

Lemma message_lifecycle_witness :
  err Demo.afterThird = ""
  ∧ err (paintChoropleth_resume Demo.third (Fulfilled Demo.spike62)
           Demo.afterThird) = "".
Proof.
  destruct message_lifecycle as (H1 & H2 & _).
  assert (err Demo.afterThird = "") as H
    by exact (H1 "spike" Demo.afterSecond Demo.afterThird Demo.third eq_refl).
  split; [exact H|].
  rewrite (H2 Demo.third Demo.spike62 _ Demo.afterThird eq_refl). exact H.
Defined.

(** ** Loading again *)

Section Reload.

Lemma mapFeatures_union fs : ∀ i (m : gmap string nat),
  (mapFeatures i fs m).2 = (mapFeatures i fs ∅).2 ∪ m.
Proof.
  induction fs as [|f fs IH]; intros i m.
  - simpl. by rewrite (left_id_L ∅ (∪)).
  - rewrite !mapFeatures_cons. cbn [snd].
    destruct (decide (featureKey f i = "__proto__")) as [->|Hne].
    + rewrite !assign_proto. apply IH.
    + rewrite !assign_insert by done.
      rewrite (IH (S i) (<[featureKey f i := i]> m)).
      rewrite (IH (S i) (<[featureKey f i := i]> ∅)).
      rewrite insert_empty, <- (assoc_L (∪)).
      by rewrite <- insert_union_singleton_l.
Qed.

Lemma buildIndex_free fs k : keyFree k 0 fs → buildIndex fs !! k = None.
Proof.
  intros Hfree. unfold buildIndex.
  by rewrite mapFeatures_index_free, lookup_empty.
Qed.

End Reload.

(** X6. [onLoad] never forgets a key: it leaves the index of the new
    collection laid over what the object held before, and the count of the
    new collection. So a key of an earlier collection that no new region
    derives keeps its old slot, and loading the same collection again (a
    second mount) leaves the index and the count as they were. *)
Theorem reload_index raw mode st :
  let st' := (onLoad raw mode st).1 in
  idMapRef st' = buildIndex raw ∪ idMapRef st
  ∧ featureCountRef st' = length raw
  ∧ (∀ k s, idMapRef st !! k = Some s → keyFree k 0 raw →
       idMapRef st' !! k = Some s)
  ∧ (∀ k s, buildIndex raw !! k = Some s → idMapRef st' !! k = Some s)
  ∧ (indexedBy raw st → indexedBy raw st').
Proof.
  intros st'.
  destruct (onLoad_frame raw mode st) as (_ & _ & _ & Hidx & Hcount & _).
  fold st' in Hidx, Hcount. rewrite mapFeatures_union in Hidx.
  fold (buildIndex raw) in Hidx.
  split; [done|]. split; [done|]. split; [|split].
  - intros k s Hk Hfree%buildIndex_free. rewrite Hidx.
    by rewrite lookup_union_r.
  - intros k s Hk. rewrite Hidx. by apply lookup_union_Some_l.
  - intros [Hi Hc]. split; [|done]. rewrite Hidx, Hi.
    apply (idemp_L (∪)).
Qed.

Lemma reload_index_witness :
  idMapRef (onLoad [Demo.named "Castro"] "forecast" Demo.loaded).1
    !! "SoMa" = Some 1.
Proof.
  refine (proj1 (proj2 (proj2
            (reload_index [Demo.named "Castro"] "forecast" Demo.loaded)))
            "SoMa" 1 eq_refl _).
  intros [|j] f Hf; simpl in Hf; [|done]. by inversion Hf.
Defined.

(** X7. Every region is found in the index under its own slot exactly when
    no two regions derive the same key and no region derives the key
    [__proto__]. *)
Theorem index_exact_iff_distinct raw :
  (∀ i f, raw !! i = Some f → buildIndex raw !! featureKey f i = Some i)
  ↔ (∀ i j f g, raw !! i = Some f → raw !! j = Some g →
       featureKey f i = featureKey g j → i = j)
    ∧ (∀ i f, raw !! i = Some f → featureKey f i ≠ "__proto__").
Proof.
  split.
  - intros Hall. split.
    + intros i j f g Hf Hg Hkey.
      pose proof (Hall i f Hf) as Hi. pose proof (Hall j g Hg) as Hj.
      rewrite Hkey in Hi. congruence.
    + intros i f Hf Hproto. pose proof (Hall i f Hf) as Hi.
      by rewrite Hproto, buildIndex_proto in Hi.
  - intros [Hinj Hproto] i f Hf. apply buildIndex_lookup.
    split; [by apply (Hproto i f)|]. exists f.
    split; [done|]. split; [done|]. apply keyFree_drop.
    intros j g Hij Hg Hkey.
    pose proof (Hinj j i g f Hg Hf Hkey). lia.
Qed.

Lemma index_exact_iff_distinct_witness :
  buildIndex Demo.regions !! "SoMa" = Some 1.
Proof.
  refine (proj2 (index_exact_iff_distinct Demo.regions) (conj _ _) 1
            (Demo.named "SoMa") eq_refl).
  - intros [|[|i]] [|[|j]] f g Hf Hg; simpl in Hf, Hg;
      inversion Hf; inversion Hg; subst; done.
  - intros [|[|i]] f Hf; simpl in Hf; inversion Hf; subst; done.
Defined.

(** X11. A shadowed region is rendered with 0: when a later region derives
    the same key, every accepted response leaves 0 on the earlier region's
    slot, even when the response has a record for the key. *)
Theorem shadowed_region_renders_zero regions p resp preds st i j f g :
  indexedBy regions st →
  rid p = requestIdRef st →
  predictions resp = Some preds →
  regions !! i = Some f → regions !! j = Some g → i < j →
  featureKey f i = featureKey g j →
  featureState (paintChoropleth_resume p (Fulfilled resp) st) !! i
  = Some JS.zero.
Proof.
  intros Hidx Hc Hp Hf Hg Hij Hkey.
  rewrite (resume_accepted p resp preds st) by done. simpl.
  assert (∀ k, idMapRef st !! k ≠ Some i) as Hno.
  { intros k Hk. destruct Hidx as [Hi _]. rewrite Hi in Hk.
    apply buildIndex_lookup in Hk as (_ & f' & Hf' & Hk & Hfree).
    pose proof (proj1 (keyFree_drop _ _ _) Hfree j g Hij Hg) as Hne.
    congruence. }
  rewrite (painted_unindexed regions) by done.
  apply lookup_lt_Some in Hf. by destruct (decide (i < length regions)).
Qed.

Lemma shadowed_region_renders_zero_witness :
  featureState Scenes.shown !! 0 = Some JS.zero
  ∧ featureState Scenes.shown !! 1 = Some (JS.Finite 70).
Proof.
  split; [|reflexivity].
  refine (shadowed_region_renders_zero Scenes.regions Demo.first
            Scenes.forecast _ Scenes.loaded 0 1 (Demo.named "Mission")
            (Demo.named "Mission") (conj eq_refl eq_refl) eq_refl eq_refl
            eq_refl eq_refl _ eq_refl).
  lia.
Defined.

(** ** The prediction cache *)

Section Cache.

Lemma newMap_from_kept preds : ∀ (m : gmap string Prediction) k,
  is_Some (m !! k) →
  is_Some
    (foldl (fun m p => <[JS.String (neighborhood_id p) := p]> m) m preds
     !! k).
Proof.
  induction preds as [|q preds IH]; intros m k Hk; simpl; [done|].
  apply IH. rewrite lookup_insert_is_Some.
  destruct (decide (JS.String (neighborhood_id q) = k)); [by left|by right].
Qed.

Lemma newMap_from_some preds : ∀ (m : gmap string Prediction) q,
  q ∈ preds →
  is_Some
    (foldl (fun m p => <[JS.String (neighborhood_id p) := p]> m) m preds
     !! JS.String (neighborhood_id q)).
Proof.
  induction preds as [|q' preds IH]; intros m q Hq; simpl.
  - by apply elem_of_nil in Hq.
  - apply elem_of_cons in Hq as [->|Hq]; [|by apply IH].
    apply newMap_from_kept. rewrite lookup_insert_eq. by eexists.
Qed.

End Cache.

(** X8. The cache built from a response holds a key exactly when some
    record of the response has it (as the string of its
    [neighborhood_id]); the record cached under a key has that key and is
    the last one of the array with it. *)
Theorem cache_last_record :
  (∀ preds k,
     newMap preds !! k = None
     ↔ ∀ q, q ∈ preds → JS.String (neighborhood_id q) ≠ k)
  ∧ (∀ preds k pr,
       newMap preds !! k = Some pr →
       pr ∈ preds ∧ JS.String (neighborhood_id pr) = k)
  ∧ (∀ before q after,
       (∀ q', q' ∈ after →
          JS.String (neighborhood_id q') ≠ JS.String (neighborhood_id q)) →
       newMap (before ++ q :: after) !! JS.String (neighborhood_id q)
       = Some q).
Proof.
  split; [|split].
  - intros preds k. split; [|apply newMap_absent].
    intros Hnone q Hq Hk.
    destruct (newMap_from_some preds ∅ q Hq) as [pr Hpr].
    fold (newMap preds) in Hpr. congruence.
  - apply newMap_present.
  - intros before q after Hafter. unfold newMap.
    rewrite foldl_app. simpl. rewrite newMap_from_absent by done.
    apply lookup_insert_eq.
Qed.

Lemma cache_last_record_witness :
  newMap [Demo.prediction "Mission" 10; Demo.prediction "SoMa" 20;
          Demo.prediction "Mission" 30] !! "Mission"
  = Some (Demo.prediction "Mission" 30).
Proof.
  refine (proj2 (proj2 cache_last_record)
            [Demo.prediction "Mission" 10; Demo.prediction "SoMa" 20]
            (Demo.prediction "Mission" 30) [] _).
  intros q' Hq'. by apply elem_of_nil in Hq'.
Defined.

(** ** The popup *)

Section PopupFacts.

Lemma featureRisk_withId f i st :
  featureRisk (withId f i) st = featureState st !! i.
Proof. done. Qed.

Lemma nameOf_withId f i : nameOf (fproperties (withId f i)) = featureName f.
Proof. done. Qed.

Lemma featureKey_named f i :
  nullish (featureName f) = false → featureKey f i = JS.String (featureName f).
Proof. unfold featureKey. by destruct (featureName f). Qed.

End PopupFacts.

(** X9. The popup agrees with the map for a named region: after an accepted
    response, hovering a region that has a name and owns its key in the
    index shows the name, the risk painted on its slot, and a last line
    taken from the very record that risk came from (mean incidents 0, or
    the risk itself as spike probability, when the response has no record
    for the key). *)
Theorem popup_agrees_for_named regions p resp preds st mode i f :
  indexedBy regions st →
  rid p = requestIdRef st →
  predictions resp = Some preds →
  regions !! i = Some f →
  nullish (featureName f) = false →
  idMapRef st !! featureKey f i = Some i →
  let st' := paintChoropleth_resume p (Fulfilled resp) st in
  let cached := newMap preds !! featureKey f i in
  featureState st' !! i = Some (riskFor (newMap preds) (featureKey f i))
  ∧ mousemove mode [withId f i] st'
    = Some {| heading := featureKey f i;
              riskLine := riskFor (newMap preds) (featureKey f i);
              detailLine :=
                if String.eqb mode "forecast"
                then MeanIncidents
                       (match cached with
                        | Some r => JS.Number (mean_incidents r)
                        | None => JS.zero
                        end)
                else match cached with
                     | Some r => SpikeProbability (JS.Number (prob r))
                     | None =>
                         SpikeFallback
                           (riskFor (newMap preds) (featureKey f i))
                     end |}.
Proof.
  intros Hidx Hc Hp Hf Hname Hown st' cached.
  assert (featureState st' !! i
          = Some (riskFor (newMap preds) (featureKey f i))) as Hrisk.
  { unfold st'. rewrite (resume_accepted p resp preds st) by done.
    by apply (painted_indexed regions). }
  split; [done|].
  unfold mousemove. rewrite featureRisk_withId, Hrisk.
  rewrite nameOf_withId.
  assert (predsByNameRef st' = newMap preds) as ->.
  { unfold st'. by rewrite (resume_accepted p resp preds st). }
  rewrite <- (featureKey_named f i) by done. fold cached.
  assert (JS.String (JS.coalesce (featureName f) (JS.IStr "?"))
          = featureKey f i) as ->.
  { rewrite (featureKey_named f i) by done. by destruct (featureName f). }
  done.
Qed.

Lemma popup_agrees_for_named_witness :
  mousemove "forecast" [withId (Demo.named "Mission") 1] Scenes.shown
  = Some {| heading := "Mission"; riskLine := JS.Finite 70;
            detailLine := MeanIncidents (JS.Finite 12) |}.
Proof.
  exact (proj2 (popup_agrees_for_named Scenes.regions Demo.first
                  Scenes.forecast _ Scenes.loaded "forecast" 1
                  (Demo.named "Mission") (conj eq_refl eq_refl) eq_refl
                  eq_refl eq_refl eq_refl eq_refl)).
Defined.

(** X10. The popup misses the record of a nameless region: the map paints a
    region without a name under the key of its id or position, but the
    handler looks the cache up under [String(name)], that is "undefined" or
    "null". Unless the response has a record with such a key, the popup of
    the region shows "?" and the painted risk, with mean incidents 0 in
    forecast mode and the risk as spike probability otherwise, whatever the
    record that painted it says. *)
Theorem popup_misses_nameless regions p resp preds st mode i f :
  indexedBy regions st →
  rid p = requestIdRef st →
  predictions resp = Some preds →
  regions !! i = Some f →
  nullish (featureName f) = true →
  idMapRef st !! featureKey f i = Some i →
  (∀ q, q ∈ preds →
     JS.String (neighborhood_id q) ≠ "undefined"
     ∧ JS.String (neighborhood_id q) ≠ "null") →
  let st' := paintChoropleth_resume p (Fulfilled resp) st in
  mousemove mode [withId f i] st'
  = Some {| heading := "?";
            riskLine := riskFor (newMap preds) (featureKey f i);
            detailLine :=
              if String.eqb mode "forecast"
              then MeanIncidents JS.zero
              else SpikeFallback
                     (riskFor (newMap preds) (featureKey f i)) |}.
Proof.
  intros Hidx Hc Hp Hf Hname Hown Hnone st'.
  unfold mousemove. rewrite featureRisk_withId.
  rewrite nameOf_withId.
  assert (featureState st' !! i
          = Some (riskFor (newMap preds) (featureKey f i))) as ->.
  { unfold st'. rewrite (resume_accepted p resp preds st) by done.
    by apply (painted_indexed regions). }
  assert (predsByNameRef st' = newMap preds) as ->.
  { unfold st'. by rewrite (resume_accepted p resp preds st). }
  assert (newMap preds !! JS.String (featureName f) = None) as ->.
  { apply newMap_absent. intros q Hq. destruct (Hnone q Hq) as [Hu Hn].
    by destruct (featureName f). }
  by destruct (featureName f).
Qed.

Lemma popup_misses_nameless_witness :
  featureKey (Scenes.anonymous Scenes.id42) 2 = "42"
  ∧ newMap [Scenes.record (JS.IStr "Mission") 70 12;
            Scenes.record Scenes.id42 30 4] !! "42"
    = Some (Scenes.record Scenes.id42 30 4)
  ∧ mousemove "forecast" [withId (Scenes.anonymous Scenes.id42) 2]
      Scenes.shown
    = Some {| heading := "?"; riskLine := JS.Finite 30;
              detailLine := MeanIncidents JS.zero |}.
Proof.
  split; [reflexivity|]. split; [reflexivity|].
  refine (popup_misses_nameless Scenes.regions Demo.first Scenes.forecast _
            Scenes.loaded "forecast" 2 (Scenes.anonymous Scenes.id42)
            (conj eq_refl eq_refl) eq_refl eq_refl eq_refl eq_refl eq_refl
            _).
  intros q Hq.
  repeat (apply elem_of_cons in Hq as [->|Hq]; [by split|]).
  by apply elem_of_nil in Hq.
Defined.

(** ** Mounting *)

Section Mounting.

(** While the map or its source is missing, changes of the controls do
    nothing at all. *)
Lemma changes_noop st (log : list Pending) modes :
  mapRef st = false ∨ getSource st = false →
  foldl step (st, log) (Changed <$> modes) = (st, log).
Proof.
  intros H. induction modes as [|mode modes IH]; [done|].
  simpl. rewrite (paintChoropleth_noop mode st H). simpl.
  by rewrite app_nil_r.
Qed.

Lemma loadErrorText_nonempty message : loadErrorText message ≠ "".
Proof.
  unfold loadErrorText. destruct message as [s|]; [|done].
  destruct (String.eqb s "") eqn:E; [done|]. by apply String.eqb_neq in E.
Qed.

Lemma onLoad_issues raw mode st :
  mapRef st = true →
  requestIdRef (onLoad raw mode st).1 = S (requestIdRef st)
  ∧ (onLoad raw mode st).2
    = Some {| rid := S (requestIdRef st); currentMode := mode |}
  ∧ loading (onLoad raw mode st).1 = true.
Proof.
  intros Hm. unfold onLoad.
  destruct (mapFeatures 0 raw (idMapRef st)) as [features idMap].
  cbn [source_neigh setFeatureCount setIdMap].
  destruct (source_neigh st) as [old|] eqn:Hsrc;
    unfold paintChoropleth, getSource; simpl; by rewrite Hm, ?Hsrc.
Qed.

Lemma mapFeatures_features_same fs i (m m' : gmap string nat) :
  (mapFeatures i fs m).1 = (mapFeatures i fs m').1.
Proof.
  apply list_eq. intros j. by rewrite !mapFeatures_features.
Qed.

Lemma onLoad_indexedBy_again raw mode st :
  indexedBy raw st → indexedBy raw (onLoad raw mode st).1.
Proof.
  intros [Hi Hc].
  destruct (onLoad_frame raw mode st) as (_ & _ & _ & Hidx & Hcount & _).
  split; [|done]. rewrite Hidx, mapFeatures_union, Hi.
  apply (idemp_L (∪)).
Qed.

End Mounting.

(** X12. Without a usable Mapbox token, or without WebGL, effect 1 creates
    no map and puts a message on display; from then on changes of the
    controls do nothing: no epoch is issued, the loading flag is not raised
    and the message stays. *)
Theorem map_refused accessToken supported st :
  mapRef st = false →
  tokenPresent accessToken = false ∨ supported = false →
  let st' := initMapEffect accessToken supported st in
  mapRef st' = false
  ∧ err st' ≠ ""
  ∧ requestIdRef st' = requestIdRef st
  ∧ (∀ modes log, foldl step (st', log) (Changed <$> modes) = (st', log)).
Proof.
  intros Hm Hrefused st'.
  assert (mapRef st' = false ∧ err st' ≠ ""
          ∧ requestIdRef st' = requestIdRef st) as (H1 & H2 & H3).
  { unfold st', initMapEffect. rewrite Hm.
    destruct (tokenPresent accessToken); simpl; [|done].
    destruct Hrefused as [Ht|Hs]; [done|]. by rewrite Hs. }
  repeat split; try done.
  intros modes log. apply changes_noop. by left.
Qed.

Lemma map_refused_witness :
  err (initMapEffect (Some "") true initialState)
  = "Mapbox token missing. Put VITE_MAPBOX_TOKEN in frontend/.env and restart Vite."
  ∧ foldl step (initMapEffect (Some "") true initialState, [])
      (Changed <$> ["spike"; "forecast"])
    = (initMapEffect (Some "") true initialState, []).
Proof.
  split; [reflexivity|].
  exact (proj2 (proj2 (proj2
           (map_refused (Some "") true initialState eq_refl
              (or_introl eq_refl))))
           ["spike"; "forecast"] []).
Defined.

(** X13. Mounting again: when the map of a loaded component is removed by
    the cleanup of effect 1 and effect 1 then runs again, the new map has
    no source and no feature state (whatever was painted on the old one),
    so changes of the controls do nothing until [onLoad] has run again;
    [onLoad] with the same neighborhoods then leaves the region index and
    the feature count as they were, gives the new map the source data,
    keeps the prediction cache, and issues the initial paint under the next
    epoch with the loading flag raised. *)
Theorem second_mount accessToken raw mode st :
  mapRef st = true →
  indexedBy raw st →
  tokenPresent accessToken = true →
  let remounted := initMapEffect accessToken true (cleanupEffect st) in
  let again := (onLoad raw mode remounted).1 in
  mapRef (cleanupEffect st) = false
  ∧ mapRef remounted = true
  ∧ source_neigh remounted = None
  ∧ featureState remounted = ∅
  ∧ (∀ modes log,
       foldl step (remounted, log) (Changed <$> modes) = (remounted, log))
  ∧ indexedBy raw again
  ∧ source_neigh again = Some (mapFeatures 0 raw ∅).1
  ∧ featureState again = ∅
  ∧ predsByNameRef again = predsByNameRef st
  ∧ requestIdRef again = S (requestIdRef st)
  ∧ loading again = true.
Proof.
  intros Hm Hidx Htok remounted again.
  assert (remounted
          = setMapRef true (setSource None (setFeatureStore ∅
              (setMapRef false st)))) as Hre.
  { unfold remounted, cleanupEffect, initMapEffect. rewrite Hm. simpl.
    by rewrite Htok. }
  destruct (onLoad_frame raw mode remounted)
    as (Hfs & Hpr & _ & _ & _ & Hsrc).
  fold again in Hfs, Hpr, Hsrc. rewrite Hre in Hfs, Hpr, Hsrc.
  simpl in Hfs, Hpr, Hsrc.
  destruct (onLoad_issues raw mode remounted) as (Hrid & _ & Hload);
    [by rewrite Hre|].
  fold again in Hrid, Hload. rewrite Hre in Hrid. simpl in Hrid.
  split; [unfold cleanupEffect; by rewrite Hm|].
  split; [by rewrite Hre|]. split; [by rewrite Hre|].
  split; [by rewrite Hre|].
  split.
  { intros modes log. apply changes_noop. right. by rewrite Hre. }
  split.
  { unfold again. apply onLoad_indexedBy_again. rewrite Hre.
    by destruct Hidx. }
  split. { rewrite Hsrc. f_equal. apply mapFeatures_features_same. }
  by repeat split.
Qed.

Lemma second_mount_witness :
  featureState Demo.painted80 !! 0 = Some (JS.Finite 80)
  ∧ featureState
      (onLoad Demo.regions "forecast"
         (initMapEffect (Some "pk.token") true
            (cleanupEffect Demo.painted80))).1 !! 0 = None
  ∧ idMapRef
      (onLoad Demo.regions "forecast"
         (initMapEffect (Some "pk.token") true
            (cleanupEffect Demo.painted80))).1
    = buildIndex Demo.regions.
Proof.
  pose proof (second_mount (Some "pk.token") Demo.regions "forecast"
                Demo.painted80 eq_refl (conj eq_refl eq_refl) eq_refl)
    as (_ & _ & _ & _ & _ & [Hidx _] & _ & Hfs & _).
  split; [reflexivity|]. split; [|exact Hidx].
  rewrite Hfs. reflexivity.
Defined.

(** X14. When the neighborhoods cannot be loaded ([getNeighborhoods]
    rejects, or its payload has no features array), [onLoad] suspends no
    call and issues no epoch, a non-empty message is put on display, the
    map gets no source, and from then on changes of the controls do
    nothing. *)
Theorem load_failure r mode st :
  source_neigh st = None →
  (r = NeighborhoodsFulfilled None
   ∨ ∃ message, r = NeighborhoodsRejected message) →
  let st' := (onLoad_resume r mode st).1 in
  (onLoad_resume r mode st).2 = None
  ∧ err st' ≠ ""
  ∧ requestIdRef st' = requestIdRef st
  ∧ source_neigh st' = None
  ∧ idMapRef st' = idMapRef st
  ∧ (∀ modes log, foldl step (st', log) (Changed <$> modes) = (st', log)).
Proof.
  intros Hsrc Hr st'.
  assert (∃ message, onLoad_resume r mode st
                     = (setErr (loadErrorText message) st, None))
    as [message Heq].
  { destruct Hr as [->|[message ->]]; by eexists. }
  unfold st'. rewrite Heq. simpl.
  repeat split; try done; [apply loadErrorText_nonempty|].
  intros modes log. apply changes_noop. right.
  unfold getSource. simpl. by rewrite Hsrc.
Qed.

Lemma load_failure_witness :
  err (onLoad_resume (NeighborhoodsRejected (Some "Network Error"))
         "forecast" (setMapRef true initialState)).1 = "Network Error"
  ∧ foldl step
      ((onLoad_resume (NeighborhoodsRejected (Some "Network Error"))
          "forecast" (setMapRef true initialState)).1, [])
      (Changed <$> ["spike"])
    = ((onLoad_resume (NeighborhoodsRejected (Some "Network Error"))
          "forecast" (setMapRef true initialState)).1, []).
Proof.
  split; [reflexivity|].
  exact (proj2 (proj2 (proj2 (proj2 (proj2
           (load_failure (NeighborhoodsRejected (Some "Network Error"))
              "forecast" (setMapRef true initialState) eq_refl
              (or_intror (ex_intro _ (Some "Network Error") eq_refl)))))))
           ["spike"] []).
Defined.

(** X15. The region index is read-only after the load: control changes,
    settlements of any fetch, and loads of the same collection leave the
    index and the feature count that [onLoad] built. *)
Theorem index_stable raw evs : ∀ st log,
  indexedBy raw st →
  Forall (loadsOnly raw) evs →
  indexedBy raw (foldl step (st, log) evs).1.
Proof.
  induction evs as [|ev evs IH]; intros st log Hidx Hevs; [done|].
  apply Forall_cons in Hevs as [Hev Hevs]. simpl.
  destruct ev as [|raw' mode|mode|p r]; simpl in *.
  - destruct (mapRef st); apply IH; done.
  - subst raw'. destruct (mapRef st); [|by apply IH].
    pose proof (onLoad_indexedBy_again raw mode st Hidx) as H'.
    destruct (onLoad raw mode st) as [st' q]. by apply IH.
  - destruct (paintChoropleth_frame mode st) as (_ & _ & Hi & Hc & _).
    destruct (paintChoropleth mode st) as [st' q]. simpl in *.
    apply IH; [|done]. destruct Hidx. split; congruence.
  - destruct (resume_frame p r st) as (Hi & Hc & _).
    apply IH; [|done]. destruct Hidx. split; congruence.
Qed.

Lemma index_stable_witness :
  indexedBy Demo.regions
    (foldl step (Demo.loaded, [Demo.first])
       [Changed "spike"; Settle Demo.first (Fulfilled Demo.forecast80);
        Loaded Demo.regions "forecast";
        Settle Demo.second (Rejected None)]).1.
Proof.
  apply (index_stable Demo.regions
           [Changed "spike"; Settle Demo.first (Fulfilled Demo.forecast80);
            Loaded Demo.regions "forecast";
            Settle Demo.second (Rejected None)]
           Demo.loaded [Demo.first]).
  - split; reflexivity.
  - repeat constructor.
Defined.
